(** * Collatz sequence engine: bounded cache, memory monitor, batching

    A shallow embedding of the memoized Collatz calculator
    (src/core/CollatzCalculator.js, src/core/Cache.js,
    src/core/MemoryManager.js) and of the part of
    src/performance/PerformanceAnalyzer.js that aggregates cache hits.

    JavaScript numbers that pass [Number.isInteger] are integer valued;
    they are modelled as [Z].  On such values the operations the engine
    uses ([% 2], [/ 2] on an even value, [* 3] guarded by
    [Number.isSafeInteger], [+ 1]) are exact, so the integer model agrees
    with the floating-point execution on every input the code can
    receive.  Loops that the source may run for ever take a [fuel]
    argument that bounds the number of rounds. *)

From Stdlib Require Import ZArith Zquot List Bool Lia QArith Qminmax.
Import ListNotations.

Local Open Scope Z_scope.

(** ** Host constants and errors *)

(** [Number.MAX_SAFE_INTEGER], 2^53 - 1. *)
Definition MAX_SAFE_INTEGER : Z := 9007199254740991.

(** [Number.isSafeInteger] on an integer-valued number. *)
Definition isSafeInteger (x : Z) : bool :=
  (- MAX_SAFE_INTEGER <=? x) && (x <=? MAX_SAFE_INTEGER).

(** The double nearest to an integer, ties going to the even significand:
    what the host stores for an exact sum or difference of integer-valued
    numbers.  Integers below 2^53 in magnitude are kept; beyond, a double
    is a multiple of [2^(e-52)] for [2^e <= |x| < 2^(e+1)].  Magnitudes
    from 2^1024 on stand for the host's [Infinity]. *)
Definition roundToDouble (x : Z) : Z :=
  let a := Z.abs x in
  if a <? 2 ^ 53 then x
  else
    let ulp := 2 ^ (Z.log2 a - 52) in
    let q := a / ulp in
    let r := a mod ulp in
    let down := q * ulp in
    Z.sgn x *
    (if 2 * r <? ulp then down
     else if ulp <? 2 * r then down + ulp
     else if Z.even q then down else down + ulp).

(** The exceptions the engine can raise.  The source throws plain
    [Error] objects; they are told apart by their message. *)
Inductive Error : Type :=
| InvalidInput      (* "Input must be a positive integer" *)
| IntegerOverflow   (* "Integer overflow detected" *)
| StepLimit         (* "Sequence exceeded safe integer limit" *)
| TypeError.        (* reading [0] of [undefined] in evictLeastUsed *)

(** Outcome of a call that may throw or, in the model, run out of fuel. *)
Inductive Outcome (A : Type) : Type :=
| Returned (a : A)
| Thrown (e : Error)
| OutOfFuel.

Arguments Returned {A} a.
Arguments Thrown {A} e.
Arguments OutOfFuel {A}.

(** ** JavaScript [Map] with numeric keys

    A [Map] iterates in insertion order, and the eviction policy reads
    that order, so the map is an association list: a key that is set
    again keeps its place, a new key goes to the end. *)
Module JsMap.

Definition t (V : Type) : Type := list (Z * V).

Definition empty {V} : t V := [].

Fixpoint get {V} (k : Z) (m : t V) : option V :=
  match m with
  | [] => None
  | (k', v) :: m' => if k' =? k then Some v else get k m'
  end.

Definition has {V} (k : Z) (m : t V) : bool :=
  match get k m with Some _ => true | None => false end.

Fixpoint set {V} (k : Z) (v : V) (m : t V) : t V :=
  match m with
  | [] => [(k, v)]
  | (k', v') :: m' =>
      if k' =? k then (k, v) :: m' else (k', v') :: set k v m'
  end.

Fixpoint delete {V} (k : Z) (m : t V) : t V :=
  match m with
  | [] => []
  | (k', v') :: m' => if k' =? k then m' else (k', v') :: delete k m'
  end.

Definition size {V} (m : t V) : Z := Z.of_nat (length m).

Definition keys {V} (m : t V) : list Z := map fst m.

End JsMap.

(** ** src/core/Cache.js : class LRUCache *)
Module LRUCache.

Record t (V : Type) : Type := mk {
  maxSize : Z;
  cache : JsMap.t V;
  usage : JsMap.t Z   (* usage frequency per key *)
}.

Arguments mk {V}.
Arguments maxSize {V}.
Arguments cache {V}.
Arguments usage {V}.

(** [constructor(maxSize)] *)
Definition new {V} (maxSize : Z) : t V :=
  mk maxSize JsMap.empty JsMap.empty.

(** [updateUsage(key)]: [(usage.get(key) || 0) + 1] *)
Definition updateUsage {V} (key : Z) (c : t V) : t V :=
  let old := match JsMap.get key (usage c) with
             | Some n => n
             | None => 0
             end in
  mk (maxSize c) (cache c) (JsMap.set key (old + 1) (usage c)).

(** [get(key)]: a miss leaves the cache untouched, a hit counts. *)
Definition get {V} (key : Z) (c : t V) : option V * t V :=
  match JsMap.get key (cache c) with
  | None => (None, c)
  | Some v => (Some v, updateUsage key c)
  end.

(** [Array.prototype.sort] with comparator [(a, b) => a[1] - b[1]]:
    a stable sort by ascending count. *)
Fixpoint insertByCount (x : Z * Z) (l : list (Z * Z)) : list (Z * Z) :=
  match l with
  | [] => [x]
  | y :: l' =>
      if snd x <=? snd y then x :: y :: l' else y :: insertByCount x l'
  end.

Fixpoint sortByCount (l : list (Z * Z)) : list (Z * Z) :=
  match l with
  | [] => []
  | x :: l' => insertByCount x (sortByCount l')
  end.

(** The key [evictLeastUsed] picks: [sorted[0][0]].  [None] when the
    usage map is empty, where the source raises a TypeError. *)
Definition leastUsedKey {V} (c : t V) : option Z :=
  match sortByCount (usage c) with
  | [] => None
  | (k, _) :: _ => Some k
  end.

(** [evictLeastUsed()] *)
Definition evictLeastUsed {V} (c : t V) : option (t V) :=
  match leastUsedKey c with
  | None => None
  | Some k =>
      Some (mk (maxSize c) (JsMap.delete k (cache c))
               (JsMap.delete k (usage c)))
  end.

(** [set(key, value)]; [None] when the eviction throws. *)
Definition set {V} (key : Z) (value : V) (c : t V) : option (t V) :=
  let evicted :=
    if JsMap.size (cache c) >=? maxSize c then evictLeastUsed c
    else Some c in
  match evicted with
  | None => None
  | Some c1 =>
      Some (updateUsage key
              (mk (maxSize c1) (JsMap.set key value (cache c1)) (usage c1)))
  end.

(** [clear()] *)
Definition clear {V} (c : t V) : t V :=
  mk (maxSize c) JsMap.empty JsMap.empty.

(** [size()] *)
Definition size {V} (c : t V) : Z := JsMap.size (cache c).

(** A client call on the cache, and a run of such calls from left to
    right.  [None] when one of them throws. *)
Inductive Op (V : Type) : Type :=
| OpGet (key : Z)
| OpSet (key : Z) (value : V)
| OpClear.

Arguments OpGet {V} key.
Arguments OpSet {V} key value.
Arguments OpClear {V}.

Definition apply {V} (o : Op V) (c : t V) : option (t V) :=
  match o with
  | OpGet k => Some (snd (get k c))
  | OpSet k v => set k v c
  | OpClear => Some (clear c)
  end.

Fixpoint run {V} (ops : list (Op V)) (c : t V) : option (t V) :=
  match ops with
  | [] => Some c
  | o :: ops' =>
      match apply o c with
      | None => None
      | Some c' => run ops' c'
      end
  end.

End LRUCache.

(** ** src/core/MemoryManager.js : class MemoryManager

    [Date.now()] and [process.memoryUsage().heapUsed] are readings of the
    host.  The manager carries the host as two oracles, the k-th reading
    of the clock and the k-th reading of the heap, and counts how many of
    each it has taken. *)
Module MemoryManager.

Record t : Type := mk {
  warningThreshold : Z;     (* bytes *)
  lastCheck : Z;
  checkInterval : Z;
  dateNow : nat -> Z;
  heapUsed : nat -> Z;
  clockReads : nat;
  heapReads : nat
}.

(** [constructor(warningThreshold)], threshold in megabytes. *)
Definition new (dateNow heapUsed : nat -> Z) (warningThresholdMB : Z) : t :=
  mk (warningThresholdMB * 1024 * 1024) (dateNow O) 1000
     dateNow heapUsed 1%nat 0%nat.

(** [checkMemory()]: [true] is OK, [false] is pressure.  The optional
    [global.gc()] has no effect on the model. *)
Definition checkMemory (m : t) : bool * t :=
  if dateNow m (clockReads m) - lastCheck m <? checkInterval m then
    (true,
     mk (warningThreshold m) (lastCheck m) (checkInterval m)
        (dateNow m) (heapUsed m) (S (clockReads m)) (heapReads m))
  else
    let m' :=
      mk (warningThreshold m) (dateNow m (S (clockReads m)))
         (checkInterval m) (dateNow m) (heapUsed m)
         (S (S (clockReads m))) (S (heapReads m)) in
    if heapUsed m (heapReads m) >? warningThreshold m then (false, m')
    else (true, m').

(** The manager after [k] further calls of [checkMemory]. *)
Fixpoint after (k : nat) (m : t) : t :=
  match k with
  | O => m
  | S k' => after k' (snd (checkMemory m))
  end.

(** The monitor reports OK throughout: every call from now on returns
    [true]. *)
Definition alwaysOK (m : t) : Prop :=
  forall k, fst (checkMemory (after k m)) = true.

End MemoryManager.

(** ** src/core/CollatzCalculator.js : class CollatzCalculator *)

(** A computed trajectory, [{ steps, sequence, cacheHit }]. *)
Module Trajectory.
Record t : Type := mk {
  steps : Z;
  sequence : list Z;
  cacheHit : bool
}.
End Trajectory.

(** An element of a batch result, [{ number: i, ...result }]. *)
Module BatchEntry.
Record t : Type := mk {
  number : Z;
  result : Trajectory.t
}.
End BatchEntry.

(** A sub-range yielded by [generateRange], [{ start, end }]. *)
Module Batch.
Record t : Type := mk {
  start : Z;
  end_ : Z
}.
End Batch.

Module CollatzCalculator.

Record t : Type := mk {
  cache : LRUCache.t Trajectory.t;
  memoryManager : MemoryManager.t;
  batchSize : Z;
  memoryCheckFrequency : Z
}.

(** [config.field || fallback]: a missing or zero field takes the
    fallback. *)
Definition orDefault (field : option Z) (fallback : Z) : Z :=
  match field with
  | Some v => if v =? 0 then fallback else v
  | None => fallback
  end.

(** [constructor(config)] *)
Definition new (dateNow heapUsed : nat -> Z)
    (cacheSize memoryThreshold batchSize memoryCheckFrequency : option Z)
    : t :=
  mk (LRUCache.new (orDefault cacheSize 40000))
     (MemoryManager.new dateNow heapUsed (orDefault memoryThreshold 350))
     (orDefault batchSize 20000)
     (orDefault memoryCheckFrequency 1000).

Definition withCache (s : t) (c : LRUCache.t Trajectory.t) : t :=
  mk c (memoryManager s) (batchSize s) (memoryCheckFrequency s).

Definition withMemoryManager (s : t) (m : MemoryManager.t) : t :=
  mk (cache s) m (batchSize s) (memoryCheckFrequency s).

(** [safeMultiply(a, b)] *)
Definition safeMultiply (a b : Z) : Error + Z :=
  let result := a * b in
  if isSafeInteger result then inr result else inl IntegerOverflow.

(** The update of [currentNum], lines 47-50:
    [currentNum % 2 === 0 ? currentNum / 2
                          : this.safeMultiply(currentNum, 3) + 1]. *)
Definition collatzStep (currentNum : Z) : Error + Z :=
  if Z.rem currentNum 2 =? 0 then inr (currentNum / 2)
  else match safeMultiply currentNum 3 with
       | inl e => inl e
       | inr p => inr (p + 1)
       end.

(** The memory check at the head of the loop body, lines 28-33:
    the monitor is polled only when [steps % memoryCheckFrequency] is 0,
    and pressure clears the cache. *)
Definition pollAndClear (steps : Z) (s : t) : t :=
  if Z.rem steps (memoryCheckFrequency s) =? 0 then
    let (ok, m) := MemoryManager.checkMemory (memoryManager s) in
    if ok then withMemoryManager s m
    else withCache (withMemoryManager s m) (LRUCache.clear (cache s))
  else s.

(** [this.cache.get(key)] when [useCache], nothing otherwise. *)
Definition lookup (useCache : bool) (key : Z) (s : t)
    : option Trajectory.t * t :=
  if useCache then
    let (found, c) := LRUCache.get key (cache s) in (found, withCache s c)
  else (None, s).

(** How the [while] loop of [calculateSequence] is left. *)
Inductive LoopExit : Type :=
| Finished (steps : Z) (sequence : list Z)   (* currentNum === 1 *)
| Hit (r : Trajectory.t)                       (* return from inside *)
| Raised (e : Error)
| Starved.                                   (* the model ran out of fuel *)

(** The [while (currentNum !== 1)] loop, lines 27-58.  [fuel] bounds the
    number of times the body runs. *)
Fixpoint loop (fuel : nat) (useCache : bool) (currentNum steps : Z)
    (sequence : list Z) (s : t) : LoopExit * t :=
  if currentNum =? 1 then (Finished steps sequence, s)
  else
    match fuel with
    | O => (Starved, s)
    | S fuel' =>
        let s1 := pollAndClear steps s in
        match lookup useCache currentNum s1 with
        | (Some intermediateResult, s2) =>
            (Hit (Trajectory.mk
                    (steps + Trajectory.steps intermediateResult)
                    (sequence ++ tl (Trajectory.sequence intermediateResult))
                    true),
             s2)
        | (None, s2) =>
            match collatzStep currentNum with
            | inl e => (Raised e, s2)
            | inr next =>
                let steps' := steps + 1 in
                if steps' >? MAX_SAFE_INTEGER then (Raised StepLimit, s2)
                else loop fuel' useCache next steps' (sequence ++ [next]) s2
            end
        end
    end.

(** [calculateSequence(n, useCache)] *)
Definition calculateSequence (fuel : nat) (n : Z) (useCache : bool) (s : t)
    : Outcome Trajectory.t * t :=
  if n <=? 0 then (Thrown InvalidInput, s)
  else
    match lookup useCache n s with
    | (Some cached, s1) =>
        (Returned (Trajectory.mk (Trajectory.steps cached)
                                (Trajectory.sequence cached) true), s1)
    | (None, s1) =>
        match loop fuel useCache n 0 [n] s1 with
        | (Finished steps sequence, s2) =>
            let result := Trajectory.mk steps sequence false in
            if useCache then
              match LRUCache.set n result (cache s2) with
              | Some c => (Returned result, withCache s2 c)
              | None => (Thrown TypeError, s2)
              end
            else (Returned result, s2)
        | (Hit r, s2) => (Returned r, s2)
        | (Raised e, s2) => (Thrown e, s2)
        | (Starved, s2) => (OutOfFuel, s2)
        end
    end.

(** [*generateRange(start, end)]: the batches in the order they are
    yielded.  [None] when [fuel] batches do not reach the end.  The sums
    are exact here; [generateRangeDouble] below rounds them as the host
    does, and the two agree while [start] and [end + batchSize] are safe
    integers. *)
Fixpoint generateRange (fuel : nat) (i end_ : Z) (s : t)
    : option (list Batch.t) :=
  if i <=? end_ then
    match fuel with
    | O => None
    | S fuel' =>
        let batchEnd := Z.min (i + batchSize s - 1) end_ in
        match generateRange fuel' (i + batchSize s) end_ s with
        | Some rest => Some (Batch.mk i batchEnd :: rest)
        | None => None
        end
    end
  else Some [].

(** [*generateRange(start, end)] with the host's arithmetic: [i +
    this.batchSize], the [- 1] after it and [i += this.batchSize] each
    give the nearest double. *)
Fixpoint generateRangeDouble (fuel : nat) (i end_ : Z) (s : t)
    : option (list Batch.t) :=
  if i <=? end_ then
    match fuel with
    | O => None
    | S fuel' =>
        let batchEnd :=
          Z.min (roundToDouble (roundToDouble (i + batchSize s) - 1)) end_ in
        match generateRangeDouble fuel' (roundToDouble (i + batchSize s))
                                  end_ s with
        | Some rest => Some (Batch.mk i batchEnd :: rest)
        | None => None
        end
    end
  else Some [].

(** The memory check at the head of the [for] body of [processBatch],
    lines 85-90.  Pressure only pauses; the pause changes no state. *)
Definition pollAndPause (i : Z) (s : t) : t :=
  if Z.rem i (memoryCheckFrequency s) =? 0 then
    withMemoryManager s (snd (MemoryManager.checkMemory (memoryManager s)))
  else s.

(** The [for (let i = start; i <= end; i++)] loop of [processBatch]
    inside its [try]; [todo] is the number of values of [i] still to
    visit.  An exception of [calculateSequence] lands in the [catch],
    which returns the results pushed so far.  The counter is exact, as
    the source's [i++] is for ranges within the safe integers; from 2^53
    on the source's counter no longer advances, and the statements that
    promise a returned batch are made for ranges within the safe
    integers. *)
Fixpoint processFrom (fuel : nat) (todo : nat) (i : Z) (useCache : bool)
    (results : list BatchEntry.t) (s : t)
    : Outcome (list BatchEntry.t) * t :=
  match todo with
  | O => (Returned results, s)
  | S todo' =>
      match calculateSequence fuel i useCache (pollAndPause i s) with
      | (Returned r, s1) =>
          processFrom fuel todo' (i + 1) useCache
                      (results ++ [BatchEntry.mk i r]) s1
      | (Thrown _, s1) => (Returned results, s1)
      | (OutOfFuel, s1) => (OutOfFuel, s1)
      end
  end.

(** [processBatch(start, end, useCache)]; [fuel] is the budget of each
    call of [calculateSequence]. *)
Definition processBatch (fuel : nat) (start end_ : Z) (useCache : bool)
    (s : t) : Outcome (list BatchEntry.t) * t :=
  processFrom fuel (Z.to_nat (end_ - start + 1)) start useCache [] s.

End CollatzCalculator.

(** ** src/performance/PerformanceAnalyzer.js : aggregation of samples

    Times and memory sizes are measurements of the host; they are carried
    as rationals.  Only the counting of cache hits is reasoned about. *)
Module PerformanceAnalyzer.

(** What [monitor.measure] returns for one repetition,
    [{ results, ...metrics }]. *)
Record Sample : Type := mkSample {
  results : option (list BatchEntry.t);
  executionTime : Q;
  memoryUsed : Q;
  peakMemoryUsed : Q
}.

(** What [calculateAverageMetrics] returns for one batch. *)
Record BatchMetrics : Type := mkBatchMetrics {
  avgExecutionTime : Q;
  avgMemoryUsed : Q;
  batchPeakMemoryUsed : Q;
  cacheHits : Q;
  firstResults : option (list BatchEntry.t)   (* samples[0].results *)
}.

(** The running totals of one configuration, [results.withCache] or
    [results.withoutCache].  [totalCacheHits] is [undefined] until set. *)
Record Metrics : Type := mkMetrics {
  totalTime : Q;
  memoryProfile : list Q;
  totalCacheHits : option Z;
  maxSteps : Z;
  peakMemory : Q;
  averageMemory : Q
}.

(** The initial [results.withCache]. *)
Definition initialWithCache : Metrics :=
  mkMetrics 0 [] (Some 0%Z) 0%Z 0 0.

Definition sumQ (l : list Q) : Q := fold_left Qplus l 0%Q.

Definition lengthQ {A} (l : list A) : Q := inject_Z (Z.of_nat (length l)).

(** [s.results?.filter((r) => r.cacheHit)?.length || 0] *)
Definition hitCount (s : Sample) : Z :=
  match results s with
  | Some rs =>
      Z.of_nat
        (length (filter (fun r => Trajectory.cacheHit (BatchEntry.result r)) rs))
  | None => 0%Z
  end.

(** [calculateAverageMetrics(samples)]; [None] on an empty array, where
    [samples[0].results] raises a TypeError. *)
Definition calculateAverageMetrics (samples : list Sample)
    : option BatchMetrics :=
  match samples with
  | [] => None
  | first :: others =>
      Some (mkBatchMetrics
              (sumQ (map executionTime samples) / lengthQ samples)
              (sumQ (map memoryUsed samples) / lengthQ samples)
              (fold_left Qminmax.Qmax (map memoryUsed others)
                         (memoryUsed first))
              (inject_Z (fold_left (fun acc s => (acc + hitCount s)%Z)
                                   samples 0%Z)
               / lengthQ samples)
              (results first))
  end.

(** The [forEach] body of [updateMetrics], lines 182-189; every batch
    entry carries a numeric [steps]. *)
Definition countResult (acc : Z * option Z) (r : BatchEntry.t)
    : Z * option Z :=
  let (maxSteps, hits) := acc in
  (Z.max maxSteps (Trajectory.steps (BatchEntry.result r)),
   if Trajectory.cacheHit (BatchEntry.result r)
   then Some (match hits with Some h => h | None => 0 end + 1)%Z
   else hits).

(** [updateMetrics(metrics, batchMetrics)] *)
Definition updateMetrics (metrics : Metrics) (batchMetrics : BatchMetrics)
    : Metrics :=
  let profile := memoryProfile metrics ++ [avgMemoryUsed batchMetrics] in
  let (steps, hits) :=
    match firstResults batchMetrics with
    | Some rs =>
        fold_left countResult rs (maxSteps metrics, totalCacheHits metrics)
    | None => (maxSteps metrics, totalCacheHits metrics)
    end in
  mkMetrics (totalTime metrics + avgExecutionTime batchMetrics)
            profile
            hits
            steps
            (Qminmax.Qmax (peakMemory metrics)
                          (batchPeakMemoryUsed batchMetrics))
            (sumQ profile / lengthQ profile).

(** [cacheHitRate] of [generateDetailedReport], for a range with
    [start <= end]: [(cacheHits / count) * 100]. *)
Definition cacheHitRate (metrics : Metrics) (start end_ : Z) : option Q :=
  match totalCacheHits metrics with
  | Some h => Some (inject_Z h / inject_Z (end_ - start + 1) * 100)%Q
  | None => None
  end.

End PerformanceAnalyzer.

(** * Specification predicates *)

(** The two maps of a cache list the same keys in the same order. *)
Definition aligned {V} (c : LRUCache.t V) : Prop :=
  JsMap.keys (LRUCache.cache c) = JsMap.keys (LRUCache.usage c).

(** What every cache built by its own operations satisfies. *)
Definition wellFormed {V} (c : LRUCache.t V) : Prop :=
  1 <= LRUCache.maxSize c /\ aligned c /\
  LRUCache.size c <= LRUCache.maxSize c.

(** [orbit k tail]: the Collatz steps from [k] run through [tail] and
    stop at 1, none of them overflowing. *)
Inductive orbit : Z -> list Z -> Prop :=
| orbit_one : orbit 1 []
| orbit_step k next tail :
    k <> 1 ->
    CollatzCalculator.collatzStep k = inr next ->
    orbit next tail ->
    orbit k (next :: tail).

(** [reaches n j c]: the loop started at [n] has [currentNum = c] after
    [j] rounds. *)
Inductive reaches : Z -> nat -> Z -> Prop :=
| reaches_here n : reaches n O n
| reaches_next n next j c :
    n <> 1 ->
    CollatzCalculator.collatzStep n = inr next ->
    reaches next j c ->
    reaches n (S j) c.

(** The entry stored under [k] is the trajectory of [k]. *)
Definition validEntry (k : Z) (e : Trajectory.t) : Prop :=
  exists tail,
    orbit k tail /\
    Trajectory.steps e = Z.of_nat (length tail) /\
    Trajectory.sequence e = k :: tail /\
    Z.of_nat (length tail) <= MAX_SAFE_INTEGER /\
    0 < k.

(** What a run of the loop from [currentNum] has appended and counted
    when it hands back [st] and [sq]. *)
Definition extends (currentNum steps : Z) (sequence : list Z)
    (st : Z) (sq : list Z) : Prop :=
  exists tail,
    orbit currentNum tail /\
    st = steps + Z.of_nat (length tail) /\
    sq = sequence ++ tail.

Definition cacheInv (c : LRUCache.t Trajectory.t) : Prop :=
  wellFormed c /\
  forall k e, In (k, e) (LRUCache.cache c) -> validEntry k e.

(** The calculator states the engine and its harness can produce: a
    fresh calculator of capacity at least 1, then any calls of
    [calculateSequence] and [processBatch], and the harness's
    [calculator.cache.clear()].  A call may be given any fuel, so the
    states in the middle of a call are covered as well. *)
Inductive reachable : CollatzCalculator.t -> Prop :=
| reach_new dateNow heapUsed cacheSize memoryThreshold batchSize freq :
    1 <= CollatzCalculator.orDefault cacheSize 40000 ->
    reachable (CollatzCalculator.new dateNow heapUsed cacheSize
                 memoryThreshold batchSize freq)
| reach_calculate s fuel n useCache :
    reachable s ->
    reachable (snd (CollatzCalculator.calculateSequence fuel n useCache s))
| reach_batch s fuel start end_ useCache :
    reachable s ->
    reachable (snd (CollatzCalculator.processBatch fuel start end_ useCache s))
| reach_clear s :
    reachable s ->
    reachable (CollatzCalculator.withCache s
                 (LRUCache.clear (CollatzCalculator.cache s))).


(** [chain B hi lo bs]: the batches [bs] cut the interval from [lo] to
    [hi] into consecutive pieces of [B] numbers, the last one holding
    what is left. *)
Inductive chain (B hi : Z) : Z -> list Batch.t -> Prop :=
| chain_last lo :
    lo <= hi -> hi <= lo + B - 1 ->
    chain B hi lo [Batch.mk lo hi]
| chain_cons lo rest :
    lo + B - 1 < hi ->
    chain B hi (lo + B) rest ->
    chain B hi lo (Batch.mk lo (lo + B - 1) :: rest).

(** ** Sample hosts and calculators *)

(** A calculator on a host whose clock stands still and whose heap is
    empty, so that the monitor never reports pressure. *)
Definition stillCalculator (cacheSize : Z) : CollatzCalculator.t :=
  CollatzCalculator.new (fun _ => 0) (fun _ => 0)
                        (Some cacheSize) None None None.

(** The same with capacity 2, after a cached pass over 1..4: the cache
    holds the trajectories of 1 and 2. *)
Definition warmCalculator : CollatzCalculator.t :=
  snd (CollatzCalculator.processBatch 200 1 4 true (stillCalculator 2)).

(** A calculator on a host whose clock advances two seconds per reading
    and whose heap is above the threshold at its eighth reading only. *)
Definition busyCalculator : CollatzCalculator.t :=
  CollatzCalculator.new
    (fun k => 2000 * Z.of_nat k)
    (fun k => if (k =? 7)%nat then 1000000000 else 0)
    (Some 80000) None None None.

(** A calculator with batches of 3 numbers. *)
Definition smallBatchCalculator : CollatzCalculator.t :=
  CollatzCalculator.new (fun _ => 0) (fun _ => 0) None None (Some 3) None.

(** [calculator.cache.clear()] as the harness calls it before a pass. *)
Definition clearCache (s : CollatzCalculator.t) : CollatzCalculator.t :=
  CollatzCalculator.withCache s (LRUCache.clear (CollatzCalculator.cache s)).

(** ** Further predicates *)

(** The bookkeeping of a cache: both maps list the same keys, no key
    twice, and every usage count is at least 1. *)
Definition tracked {V} (c : LRUCache.t V) : Prop :=
  aligned c /\
  NoDup (JsMap.keys (LRUCache.cache c)) /\
  Forall (fun kn => 1 <= snd kn) (LRUCache.usage c).

(** [b] follows [a] by the Collatz rule, the tripling staying within the
    safe integers. *)
Definition collatzRule (a b : Z) : Prop :=
  (Z.even a = true /\ b = a / 2) \/
  (Z.odd a = true /\ b = 3 * a + 1 /\ 3 * a <= MAX_SAFE_INTEGER).

(** What [calculateSequence] promises of a trajectory it returns for
    [n]. *)
Definition wellShaped (n : Z) (r : Trajectory.t) : Prop :=
  hd_error (Trajectory.sequence r) = Some n /\
  last (Trajectory.sequence r) 0 = 1 /\
  Z.of_nat (length (Trajectory.sequence r)) = Trajectory.steps r + 1.

(** A calculator configured with a negative batch size, which the
    [||] of the constructor lets through. *)
Definition negativeBatchCalculator : CollatzCalculator.t :=
  CollatzCalculator.new (fun _ => 0) (fun _ => 0) None None (Some (-5)) None.

(** A calculator configured with a negative cache size, which the
    [||] of the constructor lets through as well. *)
Definition negativeCacheCalculator : CollatzCalculator.t :=
  CollatzCalculator.new (fun _ => 0) (fun _ => 0) (Some (-1)) None None None.

(** * The bounded cache *)

Section CacheFacts.

Context {V : Type}.

Lemma keys_set_aligned {W} (k : Z) (v : V) (w : W)
    (m : JsMap.t V) (u : JsMap.t W) :
  JsMap.keys m = JsMap.keys u ->
  JsMap.keys (JsMap.set k v m) = JsMap.keys (JsMap.set k w u).
Proof.
  revert u; induction m as [|[k1 v1] m IH]; intros [|[k2 w2] u] E;
    simpl in *; try discriminate; auto.
  injection E as -> E.
  destruct (k2 =? k); simpl; f_equal; auto.
Qed.

Lemma keys_delete_aligned {W} (k : Z) (m : JsMap.t V) (u : JsMap.t W) :
  JsMap.keys m = JsMap.keys u ->
  JsMap.keys (JsMap.delete k m) = JsMap.keys (JsMap.delete k u).
Proof.
  revert u; induction m as [|[k1 v1] m IH]; intros [|[k2 w2] u] E;
    simpl in *; try discriminate; auto.
  injection E as -> E.
  destruct (k2 =? k); simpl; f_equal; auto.
Qed.

Lemma keys_set_same (k : Z) (v : V) (m : JsMap.t V) :
  In k (JsMap.keys m) -> JsMap.keys (JsMap.set k v m) = JsMap.keys m.
Proof.
  induction m as [|[k1 v1] m IH]; simpl; [tauto|].
  intros H. destruct (Z.eqb_spec k1 k); simpl; [congruence|].
  f_equal. apply IH. destruct H; [contradiction|assumption].
Qed.

Lemma size_set_le (k : Z) (v : V) (m : JsMap.t V) :
  JsMap.size (JsMap.set k v m) <= JsMap.size m + 1.
Proof.
  unfold JsMap.size.
  enough (length (JsMap.set k v m) <= S (length m))%nat by lia.
  induction m as [|[k1 v1] m IH]; simpl; [lia|].
  destruct (k1 =? k); simpl; lia.
Qed.

Lemma size_delete_in (k : Z) (m : JsMap.t V) :
  In k (JsMap.keys m) -> JsMap.size (JsMap.delete k m) = JsMap.size m - 1.
Proof.
  unfold JsMap.size. intros H.
  enough (S (length (JsMap.delete k m)) = length m) by lia.
  induction m as [|[k1 v1] m IH]; simpl in *; [tauto|].
  destruct (Z.eqb_spec k1 k); simpl; [reflexivity|].
  destruct H as [H|H]; [contradiction|]. now rewrite IH.
Qed.

Lemma get_set_same (k : Z) (v : V) (m : JsMap.t V) :
  JsMap.get k (JsMap.set k v m) = Some v.
Proof.
  induction m as [|[k1 v1] m IH]; simpl.
  - now rewrite Z.eqb_refl.
  - destruct (Z.eqb_spec k1 k) as [->|N]; simpl.
    + now rewrite Z.eqb_refl.
    + destruct (Z.eqb_spec k1 k); [contradiction|assumption].
Qed.

Lemma get_some_in (k : Z) (v : V) (m : JsMap.t V) :
  JsMap.get k m = Some v -> In (k, v) m.
Proof.
  induction m as [|[k1 v1] m IH]; simpl; [discriminate|].
  destruct (Z.eqb_spec k1 k) as [->|N]; intros H.
  - left. congruence.
  - right. auto.
Qed.

Lemma has_true_iff (k : Z) (m : JsMap.t V) :
  JsMap.has k m = true <-> In k (JsMap.keys m).
Proof.
  unfold JsMap.has. induction m as [|[k1 v1] m IH]; simpl.
  - split; [discriminate|tauto].
  - destruct (Z.eqb_spec k1 k) as [->|N].
    + split; auto.
    + rewrite IH. split; [auto|]. intros [H|H]; [contradiction|assumption].
Qed.

Lemma in_set_inv (k : Z) (v : V) (m : JsMap.t V) (k' : Z) (v' : V) :
  In (k', v') (JsMap.set k v m) -> (k', v') = (k, v) \/ In (k', v') m.
Proof.
  induction m as [|[k1 v1] m IH]; simpl.
  - intros [H|[]]; auto.
  - destruct (k1 =? k); simpl; intros [H|H]; auto.
    destruct (IH H); auto.
Qed.

Lemma in_delete_inv (k : Z) (m : JsMap.t V) (x : Z * V) :
  In x (JsMap.delete k m) -> In x m.
Proof.
  induction m as [|[k1 v1] m IH]; simpl; [tauto|].
  destruct (k1 =? k); simpl; intros H; auto.
  destruct H; auto.
Qed.

End CacheFacts.

Lemma insertByCount_in (x y : Z * Z) (l : list (Z * Z)) :
  In y (LRUCache.insertByCount x l) <-> y = x \/ In y l.
Proof.
  induction l as [|z l IH]; simpl.
  - intuition congruence.
  - destruct (snd x <=? snd z); simpl; [|rewrite IH]; intuition congruence.
Qed.

Lemma sortByCount_in (y : Z * Z) (l : list (Z * Z)) :
  In y (LRUCache.sortByCount l) <-> In y l.
Proof.
  induction l as [|x l IH]; simpl; [tauto|].
  rewrite insertByCount_in, IH. intuition congruence.
Qed.

(** The head of the sorted entries carries a lowest count. *)
Lemma sortByCount_head (l : list (Z * Z)) (x : Z * Z) (r : list (Z * Z)) :
  LRUCache.sortByCount l = x :: r ->
  In x l /\ forall y, In y l -> snd x <= snd y.
Proof.
  intros E. split.
  { apply sortByCount_in. rewrite E. now left. }
  revert x r E. induction l as [|a l IH]; simpl; intros x r E; [tauto|].
  destruct (LRUCache.sortByCount l) as [|b s] eqn:S; simpl in E.
  - injection E as <- _. intros y [<-|Hy]; [lia|].
    apply sortByCount_in in Hy. rewrite S in Hy. destruct Hy.
  - specialize (IH b s eq_refl).
    destruct (Z.leb_spec (snd a) (snd b)); injection E as <- _.
    + intros y [<-|Hy]; [lia|]. specialize (IH y Hy). lia.
    + intros y [<-|Hy]; [lia|]. auto.
Qed.

Lemma leastUsedKey_some {V} (c : LRUCache.t V) :
  LRUCache.usage c <> [] ->
  exists k n, LRUCache.leastUsedKey c = Some k /\
              In (k, n) (LRUCache.usage c) /\
              forall y, In y (LRUCache.usage c) -> n <= snd y.
Proof.
  intros NE. unfold LRUCache.leastUsedKey.
  destruct (LRUCache.sortByCount (LRUCache.usage c)) as [|[k n] r] eqn:S.
  - destruct (LRUCache.usage c) as [|x u]; [congruence|].
    assert (In x (LRUCache.sortByCount (x :: u)))
      by (apply sortByCount_in; now left).
    rewrite S in H. destruct H.
  - exists k, n. destruct (sortByCount_head _ _ _ S). auto.
Qed.

Section CacheInvariant.

Context {V : Type}.
Implicit Types c : LRUCache.t V.

Lemma wellFormed_new (C : Z) : 1 <= C -> wellFormed (@LRUCache.new V C).
Proof.
  intros H. split; [exact H|]. split; [reflexivity|].
  unfold LRUCache.size, JsMap.size; simpl. lia.
Qed.

Lemma wellFormed_clear c : wellFormed c -> wellFormed (LRUCache.clear c).
Proof.
  intros (H1 & _ & _). split; [exact H1|]. split; [reflexivity|].
  unfold LRUCache.size, JsMap.size; simpl. lia.
Qed.

Lemma wellFormed_get (k : Z) c :
  wellFormed c -> wellFormed (snd (LRUCache.get k c)).
Proof.
  intros (H1 & H2 & H3). unfold LRUCache.get.
  destruct (JsMap.get k (LRUCache.cache c)) as [v|] eqn:G; simpl;
    [|split; [|split]; assumption].
  split; [exact H1|]. split; [|exact H3].
  unfold aligned in *; simpl.
  rewrite keys_set_same; [assumption|].
  rewrite <- H2. apply get_some_in in G.
  change k with (fst (k, v)). now apply in_map.
Qed.

(** A full cache has a key to evict, and that key is in the cache. *)
Lemma full_cache_victim c :
  wellFormed c -> LRUCache.maxSize c <= LRUCache.size c ->
  exists victim n,
    LRUCache.leastUsedKey c = Some victim /\
    In (victim, n) (LRUCache.usage c) /\
    (forall y, In y (LRUCache.usage c) -> n <= snd y) /\
    In victim (JsMap.keys (LRUCache.cache c)).
Proof.
  intros (H1 & H2 & H3) F.
  assert (NE : LRUCache.usage c <> []).
  { intros E. unfold aligned in H2. rewrite E in H2.
    unfold LRUCache.size, JsMap.size in F.
    destruct (LRUCache.cache c); simpl in *; [lia|discriminate]. }
  destruct (leastUsedKey_some c NE) as (k & n & L & I & M).
  exists k, n. split; [exact L|]. split; [exact I|]. split; [exact M|].
  unfold aligned in H2. unfold JsMap.keys in *. rewrite H2.
  change k with (fst (k, n)). now apply in_map.
Qed.

Lemma wellFormed_set (k : Z) (v : V) c :
  wellFormed c ->
  exists c', LRUCache.set k v c = Some c' /\ wellFormed c' /\
             JsMap.get k (LRUCache.cache c') = Some v /\
             forall x, In x (LRUCache.cache c') ->
                       x = (k, v) \/ In x (LRUCache.cache c).
Proof.
  intros W. pose proof W as (H1 & H2 & H3). unfold LRUCache.set.
  destruct (Z.geb_spec (JsMap.size (LRUCache.cache c)) (LRUCache.maxSize c))
    as [F|F].
  - destruct (full_cache_victim c W F) as (victim & n & L & I & M & K).
    unfold LRUCache.evictLeastUsed. rewrite L.
    eexists; split; [reflexivity|]. simpl.
    split; [|split].
    + split; [exact H1|]. split.
      * unfold aligned; simpl.
        apply keys_set_aligned, keys_delete_aligned, H2.
      * unfold LRUCache.size in *; simpl.
        pose proof (size_set_le k v (JsMap.delete victim (LRUCache.cache c))).
        rewrite size_delete_in in H by assumption. lia.
    + apply get_set_same.
    + intros [k' v'] Hx. apply in_set_inv in Hx as [Hx|Hx]; auto.
      right. eapply in_delete_inv, Hx.
  - eexists; split; [reflexivity|]. simpl.
    split; [|split].
    + split; [exact H1|]. split.
      * unfold aligned; simpl. apply keys_set_aligned, H2.
      * unfold LRUCache.size in *; simpl.
        pose proof (size_set_le k v (LRUCache.cache c)). lia.
    + apply get_set_same.
    + intros [k' v'] Hx. apply in_set_inv in Hx as [Hx|Hx]; auto.
Qed.

Lemma wellFormed_apply (o : LRUCache.Op V) c :
  wellFormed c ->
  exists c', LRUCache.apply o c = Some c' /\ wellFormed c' /\
             LRUCache.maxSize c' = LRUCache.maxSize c.
Proof.
  intros W. destruct o as [k|k v|]; simpl.
  - eexists; split; [reflexivity|]. split; [now apply wellFormed_get|].
    unfold LRUCache.get. now destruct (JsMap.get k (LRUCache.cache c)).
  - destruct (wellFormed_set k v c W) as (c' & E & W' & _).
    exists c'. split; [exact E|]. split; [exact W'|].
    unfold LRUCache.set in E.
    destruct (JsMap.size (LRUCache.cache c) >=? LRUCache.maxSize c).
    + unfold LRUCache.evictLeastUsed in E.
      destruct (LRUCache.leastUsedKey c); [|discriminate].
      injection E as <-. reflexivity.
    + injection E as <-. reflexivity.
  - eexists; split; [reflexivity|]. split; [now apply wellFormed_clear|].
    reflexivity.
Qed.

Lemma wellFormed_run (ops : list (LRUCache.Op V)) c :
  wellFormed c ->
  exists c', LRUCache.run ops c = Some c' /\ wellFormed c' /\
             LRUCache.maxSize c' = LRUCache.maxSize c.
Proof.
  revert c. induction ops as [|o ops IH]; intros c W; simpl.
  - exists c. auto.
  - destruct (wellFormed_apply o c W) as (c1 & E & W1 & M1). rewrite E.
    destruct (IH c1 W1) as (c2 & E2 & W2 & M2).
    exists c2. split; [exact E2|]. split; [exact W2|]. congruence.
Qed.

End CacheInvariant.

(** C3. A cache built with capacity [C >= 1] never throws and never holds
    more than [C] entries, whatever [get], [set] and [clear] calls are
    made on it. *)
Theorem LRUCache_size_bounded (V : Type) (C : Z) (ops : list (LRUCache.Op V)) :
  1 <= C ->
  exists c, LRUCache.run ops (LRUCache.new C) = Some c /\
            LRUCache.size c <= C.
Proof.
  intros HC.
  destruct (wellFormed_run ops (LRUCache.new C) (wellFormed_new C HC))
    as (c & E & (_ & _ & S) & M).
  exists c. split; [assumption|]. simpl in M. lia.
Qed.

Lemma LRUCache_size_bounded_witness :
  exists c,
    LRUCache.run
      [LRUCache.OpSet 1 10; LRUCache.OpSet 2 20; LRUCache.OpGet 1;
       LRUCache.OpSet 3 30; LRUCache.OpClear; LRUCache.OpSet 4 40]
      (LRUCache.new 2) = Some c /\
    LRUCache.size c <= 2.
Proof. apply (LRUCache_size_bounded Z 2); lia. Defined.

(** C5, as amended.  On a cache that is full ([size() >= C], for a cache
    built with capacity [C >= 1] by its own operations), [set(key, value)]
    evicts exactly one entry before inserting, whether or not [key] is
    already present: the entry [evictLeastUsed] picks, which carries a
    lowest usage count.  The value is then stored under [key]. *)
Theorem LRUCache_set_full_evicts (V : Type) (C : Z)
    (ops : list (LRUCache.Op V)) (c : LRUCache.t V) (key : Z) (value : V) :
  1 <= C ->
  LRUCache.run ops (LRUCache.new C) = Some c ->
  LRUCache.size c >= C ->
  exists victim count c1 c2,
    In (victim, count) (LRUCache.usage c) /\
    (forall k n, In (k, n) (LRUCache.usage c) -> count <= n) /\
    JsMap.has victim (LRUCache.cache c) = true /\
    LRUCache.evictLeastUsed c = Some c1 /\
    LRUCache.cache c1 = JsMap.delete victim (LRUCache.cache c) /\
    LRUCache.size c1 = LRUCache.size c - 1 /\
    LRUCache.set key value c = Some c2 /\
    LRUCache.cache c2 = JsMap.set key value (LRUCache.cache c1) /\
    JsMap.get key (LRUCache.cache c2) = Some value.
Proof.
  intros HC R F.
  destruct (wellFormed_run ops (LRUCache.new C) (wellFormed_new C HC))
    as (c' & E & W & M).
  rewrite R in E. injection E as <-. simpl in M.
  assert (F' : LRUCache.maxSize c <= LRUCache.size c) by lia.
  destruct (full_cache_victim c W F') as (victim & n & L & I & Min & K).
  exists victim, n.
  unfold LRUCache.set, LRUCache.evictLeastUsed. rewrite L.
  destruct (Z.geb_spec (JsMap.size (LRUCache.cache c)) (LRUCache.maxSize c))
    as [G|G]; [|unfold LRUCache.size in F'; lia].
  do 2 eexists. repeat split; try reflexivity; auto.
  - intros k m Hk. apply (Min (k, m) Hk).
  - now apply has_true_iff.
  - unfold LRUCache.size; simpl. now apply size_delete_in.
  - simpl. apply get_set_same.
Qed.

Lemma LRUCache_set_full_evicts_witness :
  exists victim count c1 c2,
    In (victim, count)
       (LRUCache.usage (LRUCache.mk 2 [(1, 10); (2, 20)] [(1, 1); (2, 1)])) /\
    (forall k n,
        In (k, n)
           (LRUCache.usage (LRUCache.mk 2 [(1, 10); (2, 20)] [(1, 1); (2, 1)])) ->
        count <= n) /\
    JsMap.has victim
      (LRUCache.cache (LRUCache.mk 2 [(1, 10); (2, 20)] [(1, 1); (2, 1)]))
      = true /\
    LRUCache.evictLeastUsed
      (LRUCache.mk 2 [(1, 10); (2, 20)] [(1, 1); (2, 1)]) = Some c1 /\
    LRUCache.cache c1 =
      JsMap.delete victim
        (LRUCache.cache (LRUCache.mk 2 [(1, 10); (2, 20)] [(1, 1); (2, 1)])) /\
    LRUCache.size c1 =
      LRUCache.size (LRUCache.mk 2 [(1, 10); (2, 20)] [(1, 1); (2, 1)]) - 1 /\
    LRUCache.set 2 21 (LRUCache.mk 2 [(1, 10); (2, 20)] [(1, 1); (2, 1)])
      = Some c2 /\
    LRUCache.cache c2 = JsMap.set 2 21 (LRUCache.cache c1) /\
    JsMap.get 2 (LRUCache.cache c2) = Some 21.
Proof.
  apply (LRUCache_set_full_evicts Z 2
           [LRUCache.OpSet 1 10; LRUCache.OpSet 2 20]).
  - lia.
  - reflexivity.
  - vm_compute. discriminate.
Defined.

(** C5, counterexample.  With capacity 2 and keys 1 and 2 stored, setting
    key 2 again finds the cache full and evicts key 1, although key 2 was
    already present: one entry is left. *)
Lemma LRUCache_set_present_key_evicts :
  exists c c',
    LRUCache.run [LRUCache.OpSet 1 10; LRUCache.OpSet 2 20] (LRUCache.new 2)
      = Some c /\
    LRUCache.size c >= LRUCache.maxSize c /\
    JsMap.has 2 (LRUCache.cache c) = true /\
    JsMap.has 1 (LRUCache.cache c) = true /\
    LRUCache.set 2 21 c = Some c' /\
    JsMap.has 1 (LRUCache.cache c') = false /\
    LRUCache.size c' = 1.
Proof.
  do 2 eexists. repeat split; try reflexivity. vm_compute. discriminate.
Qed.

(** * The sequence engine *)

Import CollatzCalculator.

Lemma orbit_deterministic k t1 t2 : orbit k t1 -> orbit k t2 -> t1 = t2.
Proof.
  intros O1; revert t2. induction O1 as [|k next tail N E O1 IH]; intros t2 O2.
  - inversion O2; [reflexivity|congruence].
  - inversion O2 as [|k' next' tail' N' E' O2']; subst; [congruence|].
    assert (next' = next) by congruence. subst. f_equal. auto.
Qed.

Lemma orbit_last k tail : orbit k tail -> last (k :: tail) 0 = 1.
Proof.
  induction 1 as [|k next tail N E O IH]; [reflexivity|].
  change (last (k :: next :: tail) 0) with (last (next :: tail) 0). exact IH.
Qed.

(** A value that overflows on its next step lies on no orbit. *)
Lemma reaches_stuck_no_orbit n j c e tail :
  reaches n j c -> c <> 1 -> collatzStep c = inl e -> ~ orbit n tail.
Proof.
  intros R; revert tail. induction R as [n|n next j c N E R IH];
    intros tail C1 St O.
  - inversion O; congruence.
  - inversion O as [|k' next' tail' N' E' O']; subst; [congruence|].
    assert (next' = next) by congruence. subst. eapply IH; eauto.
Qed.

(** ** The memory manager *)

Lemma alwaysOK_now m :
  MemoryManager.alwaysOK m -> fst (MemoryManager.checkMemory m) = true.
Proof. intros H. exact (H O). Qed.

Lemma alwaysOK_next m :
  MemoryManager.alwaysOK m ->
  MemoryManager.alwaysOK (snd (MemoryManager.checkMemory m)).
Proof. intros H k. exact (H (S k)). Qed.

(** A host whose heap never exceeds the threshold is OK throughout. *)
Lemma calm_heap_alwaysOK m :
  (forall i, MemoryManager.heapUsed m i <= MemoryManager.warningThreshold m) ->
  MemoryManager.alwaysOK m.
Proof.
  intros H k. revert m H. induction k as [|k IH]; intros m H; simpl.
  - unfold MemoryManager.checkMemory.
    destruct (_ <? _); [reflexivity|].
    destruct (Z.gtb_spec (MemoryManager.heapUsed m (MemoryManager.heapReads m))
                (MemoryManager.warningThreshold m)); [|reflexivity].
    specialize (H (MemoryManager.heapReads m)). lia.
  - apply IH. intros i. unfold MemoryManager.checkMemory.
    destruct (_ <? _); [apply H|]. destruct (_ >? _); apply H.
Qed.

(** ** Steps of the loop *)

Lemma loop_unfold fuel useCache currentNum steps sequence s :
  loop fuel useCache currentNum steps sequence s =
  if currentNum =? 1 then (Finished steps sequence, s)
  else
    match fuel with
    | O => (Starved, s)
    | S fuel' =>
        match lookup useCache currentNum (pollAndClear steps s) with
        | (Some r, s2) =>
            (Hit (Trajectory.mk (steps + Trajectory.steps r)
                    (sequence ++ tl (Trajectory.sequence r)) true), s2)
        | (None, s2) =>
            match collatzStep currentNum with
            | inl e => (Raised e, s2)
            | inr next =>
                if steps + 1 >? MAX_SAFE_INTEGER then (Raised StepLimit, s2)
                else loop fuel' useCache next (steps + 1)
                          (sequence ++ [next]) s2
            end
        end
    end.
Proof. destruct fuel; reflexivity. Qed.

Lemma cacheInv_clear c : cacheInv c -> cacheInv (LRUCache.clear c).
Proof.
  intros [W _]. split; [now apply wellFormed_clear|]. intros k e [].
Qed.

Lemma cacheInv_get k c : cacheInv c -> cacheInv (snd (LRUCache.get k c)).
Proof.
  intros [W E]. split; [now apply wellFormed_get|].
  unfold LRUCache.get. destruct (JsMap.get k (LRUCache.cache c)); exact E.
Qed.

Lemma cacheInv_set k e c :
  cacheInv c -> validEntry k e ->
  exists c', LRUCache.set k e c = Some c' /\ cacheInv c'.
Proof.
  intros [W E] Ve. destruct (wellFormed_set k e c W) as (c' & S & W' & _ & I).
  exists c'. split; [exact S|]. split; [exact W'|].
  intros k' e' H. destruct (I _ H) as [Q|Q]; [|now apply E].
  injection Q as -> ->. exact Ve.
Qed.

Lemma pollAndClear_inv steps s :
  cacheInv (cache s) -> cacheInv (cache (pollAndClear steps s)).
Proof.
  intros H. unfold pollAndClear. destruct (_ =? 0); [|exact H].
  destruct (MemoryManager.checkMemory (memoryManager s)) as [[|] m]; simpl;
    [exact H|now apply cacheInv_clear].
Qed.

Lemma pollAndClear_frame steps s :
  cache (pollAndClear steps s) = cache s \/
  cache (pollAndClear steps s) = LRUCache.clear (cache s).
Proof.
  unfold pollAndClear. destruct (_ =? 0); [|now left].
  destruct (MemoryManager.checkMemory (memoryManager s)) as [[|] m]; simpl; auto.
Qed.

Lemma pollAndClear_calm steps s :
  MemoryManager.alwaysOK (memoryManager s) ->
  cache (pollAndClear steps s) = cache s /\
  MemoryManager.alwaysOK (memoryManager (pollAndClear steps s)).
Proof.
  intros H. unfold pollAndClear. destruct (_ =? 0); [|now split].
  pose proof (alwaysOK_now _ H) as N. pose proof (alwaysOK_next _ H) as X.
  destruct (MemoryManager.checkMemory (memoryManager s)) as [ok m].
  simpl in N, X. subst ok. simpl. now split.
Qed.

Lemma lookup_inv useCache key s found s' :
  lookup useCache key s = (found, s') ->
  cacheInv (cache s) -> cacheInv (cache s').
Proof.
  unfold lookup. destruct useCache.
  - destruct (LRUCache.get key (cache s)) as [f c] eqn:G.
    intros [= <- <-] H. simpl.
    change c with (snd (f, c)). rewrite <- G. now apply cacheInv_get.
  - now intros [= <- <-].
Qed.

Lemma lookup_found useCache key s e s' :
  lookup useCache key s = (Some e, s') ->
  useCache = true /\ JsMap.get key (LRUCache.cache (cache s)) = Some e.
Proof.
  unfold lookup. destruct useCache; [|discriminate].
  unfold LRUCache.get.
  destruct (JsMap.get key (LRUCache.cache (cache s))) as [v|];
    intros [= <- <-]; auto.
Qed.

Lemma lookup_uncached key s : lookup false key s = (None, s).
Proof. reflexivity. Qed.

Lemma lookup_absent useCache key s :
  JsMap.get key (LRUCache.cache (cache s)) = None ->
  lookup useCache key s = (None, s).
Proof.
  intros H. unfold lookup. destruct useCache; [|reflexivity].
  unfold LRUCache.get. rewrite H. now destruct s.
Qed.

Lemma loop_inv fuel useCache : forall currentNum steps sequence s,
  cacheInv (cache s) ->
  cacheInv (cache (snd (loop fuel useCache currentNum steps sequence s))).
Proof.
  induction fuel as [|fuel IH]; intros cur steps seq s H;
    rewrite loop_unfold; destruct (cur =? 1); try exact H.
  destruct (lookup useCache cur (pollAndClear steps s)) as [[r|] s2] eqn:L;
    pose proof (lookup_inv _ _ _ _ _ L (pollAndClear_inv steps s H)) as H2.
  - exact H2.
  - destruct (collatzStep cur) as [e|next]; [exact H2|].
    destruct (_ >? _); [exact H2|]. now apply IH.
Qed.

Lemma loop_sound fuel useCache : forall currentNum steps sequence s out s',
  (useCache = true -> cacheInv (cache s)) ->
  loop fuel useCache currentNum steps sequence s = (out, s') ->
  match out with
  | Finished st sq =>
      extends currentNum steps sequence st sq /\
      (steps <= MAX_SAFE_INTEGER -> st <= MAX_SAFE_INTEGER) /\
      st - steps <= Z.of_nat fuel
  | Hit r =>
      useCache = true /\ Trajectory.cacheHit r = true /\
      extends currentNum steps sequence
              (Trajectory.steps r) (Trajectory.sequence r)
  | _ => True
  end.
Proof.
  induction fuel as [|fuel IH]; intros cur steps seq s out s' H;
    rewrite loop_unfold; destruct (Z.eqb_spec cur 1) as [->|N];
    try (intros [= <- <-]; split; [|split; [auto|lia]]; exists [];
         split; [constructor|]; split; [simpl; lia|now rewrite app_nil_r]).
  - now intros [= <- <-].
  - destruct (lookup useCache cur (pollAndClear steps s)) as [[r|] s2] eqn:L.
    + intros [= <- <-]. destruct (lookup_found _ _ _ _ _ L) as [U G].
      split; [exact U|]. split; [reflexivity|].
      destruct (pollAndClear_inv steps s (H U)) as [_ E].
      destruct (E cur r (get_some_in _ _ _ G)) as (tail & O & S & Q & _).
      exists tail. simpl. rewrite S, Q. auto.
    + destruct (collatzStep cur) as [e|next] eqn:CS; [now intros [= <- <-]|].
      destruct (Z.gtb_spec (steps + 1) MAX_SAFE_INTEGER) as [G|G];
        [now intros [= <- <-]|].
      intros R. apply IH in R.
      2:{ intros U. apply (lookup_inv _ _ _ _ _ L).
          apply pollAndClear_inv. auto. }
      destruct out as [st sq|r| |]; auto.
      * destruct R as ((tail & O & S & Q) & B & F).
        split; [|split; [intros _; apply B; lia|lia]].
        exists (next :: tail). split; [now apply orbit_step|].
        split; [simpl length; lia|]. now rewrite Q, <- app_assoc.
      * destruct R as (U & Hc & tail & O & S & Q). split; [exact U|].
        split; [exact Hc|].
        exists (next :: tail). split; [now apply orbit_step|].
        split; [simpl length; lia|]. now rewrite Q, <- app_assoc.
Qed.

(** ** One call of [calculateSequence] *)

Lemma calculateSequence_sound fuel n useCache s :
  cacheInv (cache s) ->
  cacheInv (cache (snd (calculateSequence fuel n useCache s))) /\
  forall r, fst (calculateSequence fuel n useCache s) = Returned r ->
            extends n 0 [n] (Trajectory.steps r) (Trajectory.sequence r).
Proof.
  intros H. unfold calculateSequence. destruct (Z.leb_spec n 0) as [|P].
  { split; [exact H|]. discriminate. }
  destruct (lookup useCache n s) as [[cached|] s1] eqn:L;
    pose proof (lookup_inv _ _ _ _ _ L H) as H1.
  { split; [exact H1|]. intros r [= <-]. simpl.
    destruct (lookup_found _ _ _ _ _ L) as [_ G].
    destruct H as [_ E].
    destruct (E n cached (get_some_in _ _ _ G)) as (tail & O & S & Q & _).
    exists tail. rewrite S, Q. auto. }
  pose proof (loop_inv fuel useCache n 0 [n] s1 H1) as H2.
  destruct (loop fuel useCache n 0 [n] s1) as [out s2] eqn:R.
  apply loop_sound in R; [|auto]. simpl in H2.
  destruct out as [st sq|r| |]; simpl.
  - destruct R as (X & B & _).
    assert (Ve : validEntry n (Trajectory.mk st sq false)).
    { destruct X as (tail & O & S & Q). exists tail. simpl.
      unfold MAX_SAFE_INTEGER in *. repeat split; auto; lia. }
    destruct useCache.
    + destruct (cacheInv_set n _ _ H2 Ve) as (c' & Es & Hc). rewrite Es.
      split; [exact Hc|]. now intros r [= <-].
    + split; [exact H2|]. now intros r [= <-].
  - split; [exact H2|]. intros r' [= <-]. apply R.
  - split; [exact H2|]. discriminate.
  - split; [exact H2|]. discriminate.
Qed.

Lemma pollAndPause_cache i s : cache (pollAndPause i s) = cache s.
Proof. unfold pollAndPause. now destruct (_ =? 0). Qed.

Lemma processFrom_inv fuel useCache todo : forall i results s,
  cacheInv (cache s) ->
  cacheInv (cache (snd (processFrom fuel todo i useCache results s))).
Proof.
  induction todo as [|todo IH]; intros i results s H; simpl; [exact H|].
  assert (H0 : cacheInv (cache (pollAndPause i s)))
    by now rewrite pollAndPause_cache.
  destruct (calculateSequence_sound fuel i useCache _ H0) as [H1 _].
  destruct (calculateSequence fuel i useCache (pollAndPause i s))
    as [[r|e|] s1]; simpl in *; auto.
Qed.

Lemma reachable_inv s : reachable s -> cacheInv (cache s).
Proof.
  induction 1 as [dn hu cs mt bs fr HC|s fuel n uc R IH
                  |s fuel st en uc R IH|s R IH].
  - split; [now apply wellFormed_new|]. intros k e [].
  - now apply calculateSequence_sound.
  - now apply processFrom_inv.
  - now apply cacheInv_clear.
Qed.

(** C1. Whenever [calculateSequence(n, useCache)] returns, from any state
    the engine can be in, the sequence starts at [n], ends at 1 and has
    [steps + 1] elements. *)
Theorem calculateSequence_shape s fuel n useCache r :
  reachable s ->
  fst (calculateSequence fuel n useCache s) = Returned r ->
  hd_error (Trajectory.sequence r) = Some n /\
  last (Trajectory.sequence r) 0 = 1 /\
  Z.of_nat (length (Trajectory.sequence r)) = Trajectory.steps r + 1.
Proof.
  intros R E. apply reachable_inv in R.
  destruct (calculateSequence_sound fuel n useCache s R) as [_ X].
  destruct (X r E) as (tail & O & S & Q). rewrite Q, S.
  split; [reflexivity|]. split; [now apply orbit_last|].
  simpl length. lia.
Qed.

(** ** Runs along an orbit *)

(** With fuel for the whole orbit and the step count within bounds, the
    loop reaches the end of the orbit, or returns early on a cache hit
    with the same count and sequence. *)
Lemma loop_complete useCache tail : forall currentNum steps sequence s fuel,
  orbit currentNum tail ->
  (useCache = true -> cacheInv (cache s)) ->
  steps + Z.of_nat (length tail) <= MAX_SAFE_INTEGER ->
  (length tail <= fuel)%nat ->
  let st := steps + Z.of_nat (length tail) in
  let sq := sequence ++ tail in
  fst (loop fuel useCache currentNum steps sequence s) = Finished st sq \/
  (useCache = true /\
   fst (loop fuel useCache currentNum steps sequence s) =
   Hit (Trajectory.mk st sq true)).
Proof.
  intros cur steps seq s fuel O. revert steps seq s fuel.
  induction O as [|k next tail N E O IH]; intros steps seq s fuel H B F;
    rewrite loop_unfold.
  - left. simpl. rewrite app_nil_r. f_equal. f_equal. lia.
  - destruct (Z.eqb_spec k 1) as [|_]; [contradiction|].
    destruct fuel as [|fuel]; [simpl in F; lia|].
    destruct (lookup useCache k (pollAndClear steps s)) as [[r|] s2] eqn:L.
    + right. destruct (lookup_found _ _ _ _ _ L) as [U G].
      split; [exact U|].
      destruct (pollAndClear_inv steps s (H U)) as [_ Ev].
      destruct (Ev k r (get_some_in _ _ _ G)) as (t' & O' & S & Q & _).
      assert (t' = next :: tail)
        by (eapply orbit_deterministic; [exact O'|now apply orbit_step]).
      subst t'. simpl fst. rewrite S, Q. reflexivity.
    + rewrite E.
      destruct (Z.gtb_spec (steps + 1) MAX_SAFE_INTEGER) as [G|G];
        [simpl length in B; lia|].
      specialize (IH (steps + 1) (seq ++ [next]) s2 fuel).
      simpl length in *.
      replace (steps + 1 + Z.of_nat (length tail))
        with (steps + Z.of_nat (S (length tail))) in IH by lia.
      rewrite <- app_assoc in IH. apply IH; try lia.
      intros U. apply (lookup_inv _ _ _ _ _ L), pollAndClear_inv. auto.
Qed.

(** An uncached call along an orbit returns the orbit, whatever the
    state of the cache and of the monitor. *)
Lemma uncached_complete n tail fuel s :
  orbit n tail -> 0 < n ->
  Z.of_nat (length tail) <= MAX_SAFE_INTEGER ->
  (length tail <= fuel)%nat ->
  fst (calculateSequence fuel n false s) =
  Returned (Trajectory.mk (Z.of_nat (length tail)) (n :: tail) false).
Proof.
  intros O P B F. unfold calculateSequence.
  destruct (Z.leb_spec n 0); [lia|]. rewrite lookup_uncached.
  destruct (loop_complete false tail n 0 [n] s fuel O) as [R|[U _]];
    try discriminate; auto.
  destruct (loop fuel false n 0 [n] s) as [out s2]. simpl in R. now subst out.
Qed.

(** An uncached call that returns has followed an orbit within its
    fuel. *)
Lemma uncached_sound n fuel s r :
  fst (calculateSequence fuel n false s) = Returned r ->
  exists tail,
    orbit n tail /\ 0 < n /\
    Z.of_nat (length tail) <= MAX_SAFE_INTEGER /\
    (length tail <= fuel)%nat /\
    r = Trajectory.mk (Z.of_nat (length tail)) (n :: tail) false.
Proof.
  unfold calculateSequence. destruct (Z.leb_spec n 0) as [|P]; [discriminate|].
  rewrite lookup_uncached.
  destruct (loop fuel false n 0 [n] s) as [out s2] eqn:R.
  apply loop_sound in R; [|discriminate].
  destruct out as [st sq|h|e|]; simpl; try discriminate.
  - destruct R as ((tail & O & S & Q) & B & F). intros [= <-].
    exists tail. unfold MAX_SAFE_INTEGER in *.
    repeat split; auto; try lia. subst. reflexivity.
  - destruct R as [U _]. discriminate.
Qed.

(** A cached call along an orbit returns the same count and sequence. *)
Lemma cached_complete n tail fuel s :
  cacheInv (cache s) ->
  orbit n tail -> 0 < n ->
  Z.of_nat (length tail) <= MAX_SAFE_INTEGER ->
  (length tail <= fuel)%nat ->
  exists hit,
    fst (calculateSequence fuel n true s) =
    Returned (Trajectory.mk (Z.of_nat (length tail)) (n :: tail) hit).
Proof.
  intros H O P B F. unfold calculateSequence.
  destruct (Z.leb_spec n 0); [lia|].
  destruct (lookup true n s) as [[cached|] s1] eqn:L.
  - destruct (lookup_found _ _ _ _ _ L) as [_ G]. destruct H as [_ Ev].
    destruct (Ev n cached (get_some_in _ _ _ G)) as (t' & O' & S & Q & _).
    assert (t' = tail) by (eapply orbit_deterministic; eauto). subst t'.
    exists true. simpl. now rewrite S, Q.
  - pose proof (lookup_inv _ _ _ _ _ L H) as H1.
    pose proof (loop_inv fuel true n 0 [n] s1 H1) as H2.
    destruct (loop_complete true tail n 0 [n] s1 fuel O) as [R|[_ R]];
      auto; destruct (loop fuel true n 0 [n] s1) as [out s2];
      simpl in R, H2; subst out.
    + assert (Ve : validEntry n
                (Trajectory.mk (Z.of_nat (length tail)) (n :: tail) false)).
      { exists tail. simpl. repeat split; auto; lia. }
      destruct (cacheInv_set n _ _ H2 Ve) as (c' & Es & _).
      simpl. rewrite Es. exists false. reflexivity.
    + exists true. reflexivity.
Qed.

(** C2. From any state the engine can be in, when the uncached
    computation of [n] returns, the cached one returns the same [steps]
    and [sequence]; and every entry the cache holds under a key [k] is
    what the uncached computation of [k] returns.  This holds whatever
    the memory monitor reports, so in particular when it reports OK
    throughout. *)
Theorem cached_equals_uncached s fuel n r :
  reachable s ->
  fst (calculateSequence fuel n false s) = Returned r ->
  (exists r',
      fst (calculateSequence fuel n true s) = Returned r' /\
      Trajectory.steps r' = Trajectory.steps r /\
      Trajectory.sequence r' = Trajectory.sequence r) /\
  (forall k e,
      JsMap.get k (LRUCache.cache (cache s)) = Some e ->
      exists fuel_k,
        fst (calculateSequence fuel_k k false s) =
        Returned (Trajectory.mk (Trajectory.steps e)
                                (Trajectory.sequence e) false)).
Proof.
  intros R E. apply reachable_inv in R. split.
  - destruct (uncached_sound _ _ _ _ E) as (tail & O & P & B & F & ->).
    destruct (cached_complete n tail fuel s R O P B F) as (hit & C).
    eexists. split; [exact C|]. split; reflexivity.
  - intros k e G. destruct R as [_ Ev].
    destruct (Ev k e (get_some_in _ _ _ G)) as (tail & O & S & Q & B & P).
    exists (length tail). rewrite S, Q.
    now apply uncached_complete.
Qed.

(** ** Overflow *)

(** An odd value whose triple is beyond the safe range makes the step
    raise. *)
Lemma collatzStep_overflow c :
  Z.odd c = true -> MAX_SAFE_INTEGER < 3 * c ->
  collatzStep c = inl IntegerOverflow.
Proof.
  intros Odd Big. unfold collatzStep, safeMultiply, isSafeInteger.
  rewrite Zrem_odd, Odd.
  assert (P : 0 < c) by (unfold MAX_SAFE_INTEGER in Big; lia).
  rewrite Z.sgn_pos by exact P. simpl (1 =? 0).
  destruct (Z.leb_spec (c * 3) MAX_SAFE_INTEGER) as [L|L]; [lia|].
  now rewrite andb_false_r.
Qed.

Lemma stuck_key_absent c0 k j c e :
  cacheInv c0 -> reaches k j c -> c <> 1 -> collatzStep c = inl e ->
  JsMap.get k (LRUCache.cache c0) = None.
Proof.
  intros [_ Ev] R N St.
  destruct (JsMap.get k (LRUCache.cache c0)) as [v|] eqn:G; [|reflexivity].
  destruct (Ev k v (get_some_in _ _ _ G)) as (tail & O & _).
  exfalso. eapply reaches_stuck_no_orbit; eauto.
Qed.

Lemma loop_overflow useCache n j c :
  reaches n j c ->
  forall fuel steps sequence s,
    cacheInv (cache s) ->
    MemoryManager.alwaysOK (memoryManager s) ->
    (j < fuel)%nat ->
    steps + Z.of_nat j <= MAX_SAFE_INTEGER ->
    c <> 1 -> collatzStep c = inl IntegerOverflow ->
    fst (loop fuel useCache n steps sequence s) = Raised IntegerOverflow /\
    cache (snd (loop fuel useCache n steps sequence s)) = cache s.
Proof.
  induction 1 as [n|n next j c N E R IH];
    intros fuel steps seq s H OK F B C1 St; rewrite loop_unfold;
    (destruct fuel as [|fuel]; [lia|]);
    destruct (pollAndClear_calm steps s OK) as [Keep OK1];
    pose proof (pollAndClear_inv steps s H) as H1.
  - destruct (Z.eqb_spec n 1); [contradiction|].
    rewrite lookup_absent
      by (eapply stuck_key_absent; eauto using reaches_here).
    rewrite St. now split.
  - destruct (Z.eqb_spec n 1); [contradiction|].
    rewrite lookup_absent
      by (eapply stuck_key_absent; eauto using reaches_next).
    rewrite E.
    destruct (Z.gtb_spec (steps + 1) MAX_SAFE_INTEGER); [lia|].
    destruct (IH fuel (steps + 1) (seq ++ [next]) _ H1 OK1) as [X Y];
      auto; try lia.
    split; [exact X|]. now rewrite Y.
Qed.

(** The same without any assumption on the monitor: a pressure clear
    empties the cache, which cannot make a lookup on the way hit. *)
Lemma loop_overflow_raises useCache n j c :
  reaches n j c ->
  forall fuel steps sequence s,
    cacheInv (cache s) ->
    (j < fuel)%nat ->
    steps + Z.of_nat j <= MAX_SAFE_INTEGER ->
    c <> 1 -> collatzStep c = inl IntegerOverflow ->
    fst (loop fuel useCache n steps sequence s) = Raised IntegerOverflow /\
    (cache (snd (loop fuel useCache n steps sequence s)) = cache s \/
     cache (snd (loop fuel useCache n steps sequence s)) =
     LRUCache.clear (cache s)).
Proof.
  induction 1 as [n|n next j c N E R IH];
    intros fuel steps seq s H F B C1 St; rewrite loop_unfold;
    (destruct fuel as [|fuel]; [lia|]);
    pose proof (pollAndClear_inv steps s H) as H1.
  - destruct (Z.eqb_spec n 1); [contradiction|].
    rewrite lookup_absent
      by (eapply stuck_key_absent; eauto using reaches_here).
    rewrite St. split; [reflexivity|]. apply pollAndClear_frame.
  - destruct (Z.eqb_spec n 1); [contradiction|].
    rewrite lookup_absent
      by (eapply stuck_key_absent; eauto using reaches_next).
    rewrite E.
    destruct (Z.gtb_spec (steps + 1) MAX_SAFE_INTEGER); [lia|].
    destruct (IH fuel (steps + 1) (seq ++ [next]) _ H1) as [X Y];
      auto; try lia.
    split; [exact X|].
    destruct Y as [Y|Y]; destruct (pollAndClear_frame steps s) as [Z0|Z0];
      rewrite Y, Z0; auto.
Qed.

(** C6. When the loop of [calculateSequence(n, useCache)] arrives, after
    [j] rounds within the step limit, at an odd [current] whose triple is
    not a safe integer, the call raises the overflow error, whatever the
    monitor reports; the failure adds, changes or removes no single
    entry (the cache is as before or has been cleared as a whole by the
    monitor), and with the monitor reporting OK throughout the cache,
    entries and usage counts, is exactly what it was before the call. *)
Theorem overflow_raises_cache_untouched s fuel n useCache j c :
  reachable s ->
  0 < n ->
  reaches n j c ->
  Z.of_nat j <= MAX_SAFE_INTEGER ->
  (j < fuel)%nat ->
  Z.odd c = true ->
  MAX_SAFE_INTEGER < 3 * c ->
  fst (calculateSequence fuel n useCache s) = Thrown IntegerOverflow /\
  (cache (snd (calculateSequence fuel n useCache s)) = cache s \/
   cache (snd (calculateSequence fuel n useCache s)) =
   LRUCache.clear (cache s)) /\
  (MemoryManager.alwaysOK (memoryManager s) ->
   cache (snd (calculateSequence fuel n useCache s)) = cache s).
Proof.
  intros R P Rc B F Odd Big. apply reachable_inv in R.
  pose proof (collatzStep_overflow c Odd Big) as St.
  assert (C1 : c <> 1) by (unfold MAX_SAFE_INTEGER in Big; lia).
  unfold calculateSequence. destruct (Z.leb_spec n 0); [lia|].
  rewrite lookup_absent by (eapply stuck_key_absent; eauto).
  destruct (loop_overflow_raises useCache n j c Rc fuel 0 [n] s R F)
    as [X Y]; auto.
  pose proof (fun OK => loop_overflow useCache n j c Rc fuel 0 [n] s R OK F)
    as Calm.
  destruct (loop fuel useCache n 0 [n] s) as [out s2].
  simpl in X, Y, Calm. subst out. simpl.
  split; [reflexivity|]. split; [exact Y|].
  intros OK. apply Calm; auto.
Qed.

(** ** Uncached runs leave the cache alone *)

Lemma loop_uncached_frame fuel : forall currentNum steps sequence s,
  (cache (snd (loop fuel false currentNum steps sequence s)) = cache s \/
   cache (snd (loop fuel false currentNum steps sequence s)) =
   LRUCache.clear (cache s)) /\
  (MemoryManager.alwaysOK (memoryManager s) ->
   cache (snd (loop fuel false currentNum steps sequence s)) = cache s).
Proof.
  induction fuel as [|fuel IH]; intros cur steps seq s; rewrite loop_unfold;
    destruct (cur =? 1); try (split; auto).
  - rewrite lookup_uncached.
    destruct (collatzStep cur) as [e|next]; [apply pollAndClear_frame|].
    destruct (_ >? _); [apply pollAndClear_frame|].
    destruct (IH next (steps + 1) (seq ++ [next]) (pollAndClear steps s))
      as [[X|X] _];
      destruct (pollAndClear_frame steps s) as [Y|Y]; rewrite X, Y; auto.
  - intros OK. destruct (pollAndClear_calm steps s OK) as [Keep OK1].
    rewrite lookup_uncached.
    destruct (collatzStep cur) as [e|next]; [exact Keep|].
    destruct (_ >? _); [exact Keep|].
    destruct (IH next (steps + 1) (seq ++ [next]) (pollAndClear steps s))
      as [_ X].
    now rewrite X.
Qed.

(** C10. An uncached call never inserts, counts or removes single
    entries: afterwards the cache is either exactly as before or has been
    cleared as a whole, and under a monitor that reports OK throughout it
    is exactly as before, entries and usage counts alike. *)
Theorem uncached_call_frame fuel n s :
  (cache (snd (calculateSequence fuel n false s)) = cache s \/
   cache (snd (calculateSequence fuel n false s)) = LRUCache.clear (cache s)) /\
  (MemoryManager.alwaysOK (memoryManager s) ->
   cache (snd (calculateSequence fuel n false s)) = cache s).
Proof.
  unfold calculateSequence. destruct (n <=? 0); [split; auto|].
  rewrite lookup_uncached.
  pose proof (loop_uncached_frame fuel n 0 [n] s) as X.
  destruct (loop fuel false n 0 [n] s) as [[st sq|r|e|] s2]; exact X.
Qed.

Lemma stillCalculator_reachable C : 1 <= C -> C <> 0 -> reachable (stillCalculator C).
Proof.
  intros H N. apply reach_new. simpl. destruct (Z.eqb_spec C 0); [contradiction|exact H].
Qed.

Lemma warmCalculator_reachable : reachable warmCalculator.
Proof. apply reach_batch, stillCalculator_reachable; lia. Qed.

Lemma warmCalculator_alwaysOK :
  MemoryManager.alwaysOK (memoryManager warmCalculator).
Proof. apply calm_heap_alwaysOK. intros i. vm_compute. discriminate. Qed.

Lemma calculateSequence_shape_witness :
  hd_error [6; 3; 10; 5; 16; 8; 4; 2; 1] = Some 6 /\
  last [6; 3; 10; 5; 16; 8; 4; 2; 1] 0 = 1 /\
  Z.of_nat (length [6; 3; 10; 5; 16; 8; 4; 2; 1]) = 8 + 1.
Proof.
  apply (calculateSequence_shape warmCalculator 50 6 true
           (Trajectory.mk 8 [6; 3; 10; 5; 16; 8; 4; 2; 1] true)).
  - exact warmCalculator_reachable.
  - vm_compute. reflexivity.
Defined.

Lemma cached_equals_uncached_witness :
  (exists r',
      fst (calculateSequence 50 6 true warmCalculator) = Returned r' /\
      Trajectory.steps r' = 8 /\
      Trajectory.sequence r' = [6; 3; 10; 5; 16; 8; 4; 2; 1]) /\
  (forall k e,
      JsMap.get k (LRUCache.cache (cache warmCalculator)) = Some e ->
      exists fuel_k,
        fst (calculateSequence fuel_k k false warmCalculator) =
        Returned (Trajectory.mk (Trajectory.steps e)
                                (Trajectory.sequence e) false)).
Proof.
  apply (cached_equals_uncached warmCalculator 50 6
           (Trajectory.mk 8 [6; 3; 10; 5; 16; 8; 4; 2; 1] false)).
  - exact warmCalculator_reachable.
  - vm_compute. reflexivity.
Defined.

Lemma overflow_raises_cache_untouched_witness :
  fst (calculateSequence 50 6004799503160662 true warmCalculator)
    = Thrown IntegerOverflow /\
  cache (snd (calculateSequence 50 6004799503160662 true warmCalculator))
    = cache warmCalculator.
Proof.
  destruct (overflow_raises_cache_untouched warmCalculator 50
              6004799503160662 true 1 3002399751580331)
    as (T & _ & C).
  - exact warmCalculator_reachable.
  - lia.
  - apply (reaches_next _ 3002399751580331);
      [discriminate|reflexivity|apply reaches_here].
  - vm_compute. discriminate.
  - lia.
  - reflexivity.
  - vm_compute. reflexivity.
  - split; [exact T|]. apply C. exact warmCalculator_alwaysOK.
Defined.

Lemma uncached_call_frame_witness :
  cache (snd (calculateSequence 200 27 false warmCalculator))
    = cache warmCalculator.
Proof.
  apply (proj2 (uncached_call_frame 200 27 warmCalculator)).
  exact warmCalculator_alwaysOK.
Defined.

(** C9. From every state, so in particular with an empty cache and a
    monitor that reports OK throughout, [calculateSequence(27, false)]
    returns after 111 rounds of the loop with [steps = 111]. *)
Theorem calculateSequence_27 (s : CollatzCalculator.t) (extra : nat) :
  exists r,
    fst (calculateSequence (111 + extra) 27 false s) = Returned r /\
    Trajectory.steps r = 111 /\
    Trajectory.cacheHit r = false.
Proof.
  assert (E : exists r0,
             fst (calculateSequence 111 27 false (stillCalculator 1))
               = Returned r0 /\ Trajectory.steps r0 = 111).
  { eexists. split; [vm_compute; reflexivity|reflexivity]. }
  destruct E as (r0 & E & S0).
  destruct (uncached_sound _ _ _ _ E) as (tail & O & P & B & F & ->).
  simpl in S0. assert (L : length tail = 111%nat) by lia.
  eexists. split.
  { apply (uncached_complete 27 tail); auto; unfold MAX_SAFE_INTEGER; lia. }
  simpl. split; [lia|reflexivity].
Qed.

(** * Batches *)

(** ** [processBatch] *)

(** The numbers [i, i+1, ...] of the first [k] rounds. *)
Lemma processFrom_numbers fuel useCache todo : forall i results s rs,
  fst (processFrom fuel todo i useCache results s) = Returned rs ->
  exists k,
    (k <= todo)%nat /\
    map BatchEntry.number rs =
    map BatchEntry.number results ++
    map (fun j => i + Z.of_nat j) (seq 0 k).
Proof.
  induction todo as [|todo IH]; intros i results s rs; simpl.
  - intros [= <-]. exists O. split; [lia|]. simpl. now rewrite app_nil_r.
  - destruct (calculateSequence fuel i useCache (pollAndPause i s))
      as [[r|e|] s1]; simpl.
    + intros E. destruct (IH _ _ _ _ E) as (k & K & Q).
      exists (S k). split; [lia|]. rewrite Q, map_app, <- app_assoc.
      f_equal. simpl. rewrite Z.add_0_r. f_equal.
      rewrite <- seq_shift, map_map. apply map_ext. intros j. lia.
    + intros [= <-]. exists O. split; [lia|]. simpl. now rewrite app_nil_r.
    + discriminate.
Qed.





(** ** [generateRange] *)

Section Tiling.

Variables B hi : Z.
Hypothesis B_pos : 1 <= B.

Lemma chain_exists (n : nat) : forall lo,
  lo <= hi -> (Z.to_nat (hi - lo + 1) <= n)%nat ->
  exists bs, chain B hi lo bs /\ (length bs <= n)%nat.
Proof.
  induction n as [|n IH]; intros lo L F; [lia|].
  destruct (Z_le_gt_dec hi (lo + B - 1)) as [S|S].
  - exists [Batch.mk lo hi]. split; [now constructor|simpl; lia].
  - destruct (IH (lo + B)) as (rest & C & Len); try lia.
    exists (Batch.mk lo (lo + B - 1) :: rest).
    split; [constructor; [lia|exact C]|simpl; lia].
Qed.







End Tiling.

Lemma generateRange_chain s hi lo bs :
  1 <= batchSize s ->
  chain (batchSize s) hi lo bs ->
  forall fuel, (length bs <= fuel)%nat ->
               generateRange fuel lo hi s = Some bs.
Proof.
  intros HB.
  induction 1 as [lo L Sh|lo rest Sh C IH]; intros fuel F;
    (destruct fuel as [|fuel]; [simpl in F; lia|]); simpl.
  - destruct (Z.leb_spec lo hi); [|lia].
    replace (Z.min (lo + batchSize s - 1) hi) with hi by lia.
    destruct fuel; simpl.
    all: destruct (Z.leb_spec (lo + batchSize s) hi); try lia; reflexivity.
  - destruct (Z.leb_spec lo hi); [|lia].
    rewrite IH by (simpl in F; lia).
    replace (Z.min (lo + batchSize s - 1) hi) with (lo + batchSize s - 1)
      by lia.
    reflexivity.
Qed.

(** Safe integers are doubles: rounding keeps them. *)
Lemma roundToDouble_safe x :
  - MAX_SAFE_INTEGER <= x <= MAX_SAFE_INTEGER -> roundToDouble x = x.
Proof.
  intros B. unfold roundToDouble.
  destruct (Z.ltb_spec (Z.abs x) (2 ^ 53)) as [_|G]; [reflexivity|].
  unfold MAX_SAFE_INTEGER in B. change (2 ^ 53) with 9007199254740992 in G.
  lia.
Qed.

(** While [start] and [end + batchSize] are safe integers every sum of
    the generator is exact. *)
Lemma generateRangeDouble_exact fuel s end_ : forall i,
  1 <= batchSize s ->
  - MAX_SAFE_INTEGER <= i ->
  end_ + batchSize s <= MAX_SAFE_INTEGER ->
  generateRangeDouble fuel i end_ s = generateRange fuel i end_ s.
Proof.
  induction fuel as [|fuel IH]; intros i HB Lo Hi; simpl; [reflexivity|].
  destruct (Z.leb_spec i end_) as [Le|Gt]; [|reflexivity].
  rewrite !roundToDouble_safe; try rewrite roundToDouble_safe;
    try (unfold MAX_SAFE_INTEGER in *; lia).
  rewrite IH by lia. reflexivity.
Qed.




(** * Aggregation of cache hits *)

Import PerformanceAnalyzer.

Lemma fold_countResult rs : forall m h,
  snd (fold_left countResult rs (m, Some h)) =
  Some (h + Z.of_nat
              (length (filter (fun r => Trajectory.cacheHit (BatchEntry.result r))
                              rs))).
Proof.
  induction rs as [|r rs IH]; intros m h.
  - simpl. f_equal. lia.
  - change (fold_left countResult (r :: rs) (m, Some h))
      with (fold_left countResult rs (countResult (m, Some h) r)).
    assert (C : countResult (m, Some h) r =
                (Z.max m (Trajectory.steps (BatchEntry.result r)),
                 if Trajectory.cacheHit (BatchEntry.result r)
                 then Some (h + 1) else Some h)) by reflexivity.
    rewrite C. cbn [filter].
    destruct (Trajectory.cacheHit (BatchEntry.result r)); rewrite IH.
    + cbn [length]. rewrite Nat2Z.inj_succ. f_equal. lia.
    + reflexivity.
Qed.

(** What the totals receive from a batch is the hit count of its first
    sample, whatever the other samples hold. *)
Lemma updateMetrics_counts_first_sample metrics first others bm h :
  totalCacheHits metrics = Some h ->
  calculateAverageMetrics (first :: others) = Some bm ->
  totalCacheHits (updateMetrics metrics bm) = Some (h + hitCount first).
Proof.
  intros H [= <-]. unfold updateMetrics, hitCount. simpl firstResults.
  rewrite H. destruct (results first) as [rs|].
  - pose proof (fold_countResult rs (maxSteps metrics) h) as F.
    destruct (fold_left countResult rs (maxSteps metrics, Some h)) as [st hs].
    simpl in *. exact F.
  - simpl. f_equal. lia.
Qed.

(** C8, the code at a failing input.  On [busyCalculator] the harness
    takes two samples of the batch 1..4: a cached pass after a clear, an
    uncached pass after a clear, and a second cached pass after a clear,
    during which the monitor reports pressure once.  The first cached
    pass has 2 hits and the second has none, so their mean is 1;
    [calculateAverageMetrics] computes that mean, yet what
    [updateMetrics] adds to the total behind [cacheHitRate] is 2, the
    count of the first sample alone, and the reported rate over the 4
    numbers is 50 percent where the mean gives 25. *)
Theorem folded_hits_are_not_the_mean (t1 m1 p1 t2 m2 p2 : Q) :
  let pass1 := processBatch 200 1 4 true (clearCache busyCalculator) in
  let pass1u := processBatch 200 1 4 false (clearCache (snd pass1)) in
  let pass2 := processBatch 200 1 4 true (clearCache (snd pass1u)) in
  exists rs1 rs2 bm,
    fst pass1 = Returned rs1 /\
    fst pass2 = Returned rs2 /\
    hitCount (mkSample (Some rs1) t1 m1 p1) = 2%Z /\
    hitCount (mkSample (Some rs2) t2 m2 p2) = 0%Z /\
    calculateAverageMetrics
      [mkSample (Some rs1) t1 m1 p1; mkSample (Some rs2) t2 m2 p2] = Some bm /\
    (cacheHits bm == 1)%Q /\
    totalCacheHits (updateMetrics initialWithCache bm) = Some 2%Z /\
    (exists rate,
        cacheHitRate (updateMetrics initialWithCache bm) 1 4 = Some rate /\
        (rate == 50)%Q).
Proof.
  intros pass1 pass1u pass2.
  assert (E1 : exists rs1, fst pass1 = Returned rs1 /\
                           hitCount (mkSample (Some rs1) t1 m1 p1) = 2%Z).
  { eexists. split; [vm_compute; reflexivity|reflexivity]. }
  assert (E2 : exists rs2, fst pass2 = Returned rs2 /\
                           hitCount (mkSample (Some rs2) t2 m2 p2) = 0%Z).
  { eexists. split; [vm_compute; reflexivity|reflexivity]. }
  destruct E1 as (rs1 & E1 & H1). destruct E2 as (rs2 & E2 & H2).
  set (s1 := mkSample (Some rs1) t1 m1 p1) in *.
  set (s2 := mkSample (Some rs2) t2 m2 p2) in *.
  destruct (calculateAverageMetrics [s1; s2]) as [bm|] eqn:A;
    [|discriminate A].
  pose proof (updateMetrics_counts_first_sample
                initialWithCache s1 [s2] bm 0 eq_refl A) as T.
  rewrite H1 in T. change (Some (0 + 2)%Z) with (Some 2%Z) in T.
  exists rs1, rs2, bm.
  split; [exact E1|]. split; [exact E2|].
  split; [exact H1|]. split; [exact H2|].
  split; [exact A|]. split; [|split; [exact T|]].
  - injection A as <-. cbn [cacheHits fold_left]. rewrite H1, H2. reflexivity.
  - unfold cacheHitRate. rewrite T. eexists. split; reflexivity.
Qed.

(** * Further properties of the cache *)

Section MapFacts.

Context {V : Type}.
Implicit Types m : JsMap.t V.

Lemma get_set_other (k k' : Z) (v : V) m :
  k' <> k -> JsMap.get k' (JsMap.set k v m) = JsMap.get k' m.
Proof.
  intros N. induction m as [|[k1 v1] m IH]; simpl.
  - destruct (Z.eqb_spec k k'); [congruence|reflexivity].
  - destruct (Z.eqb_spec k1 k) as [->|N1]; simpl.
    + destruct (Z.eqb_spec k k'); [congruence|reflexivity].
    + destruct (k1 =? k'); [reflexivity|exact IH].
Qed.

Lemma get_delete_other (k k' : Z) m :
  k' <> k -> JsMap.get k' (JsMap.delete k m) = JsMap.get k' m.
Proof.
  intros N. induction m as [|[k1 v1] m IH]; simpl; [reflexivity|].
  destruct (Z.eqb_spec k1 k) as [->|N1]; simpl.
  - destruct (Z.eqb_spec k k'); [congruence|reflexivity].
  - destruct (k1 =? k'); [reflexivity|exact IH].
Qed.

Lemma keys_set_new (k : Z) (v : V) m :
  ~ In k (JsMap.keys m) -> JsMap.keys (JsMap.set k v m) = JsMap.keys m ++ [k].
Proof.
  induction m as [|[k1 v1] m IH]; simpl; [reflexivity|].
  intros N. destruct (Z.eqb_spec k1 k) as [->|N1]; simpl.
  - exfalso. auto.
  - f_equal. apply IH. auto.
Qed.

Lemma keys_delete_in (k x : Z) m :
  In x (JsMap.keys (JsMap.delete k m)) -> In x (JsMap.keys m).
Proof.
  induction m as [|[k1 v1] m IH]; simpl; [tauto|].
  destruct (k1 =? k); simpl; intuition.
Qed.

Lemma keys_delete_nodup (k : Z) m :
  NoDup (JsMap.keys m) ->
  NoDup (JsMap.keys (JsMap.delete k m)) /\
  ~ In k (JsMap.keys (JsMap.delete k m)).
Proof.
  induction m as [|[k1 v1] m IH]; simpl; intros ND.
  - split; [constructor|tauto].
  - inversion ND as [|? ? N1 ND']; subst.
    destruct (Z.eqb_spec k1 k) as [->|Ne]; simpl; [now split|].
    destruct (IH ND') as [X Y]. split.
    + constructor; [|exact X]. intros I. apply N1. eapply keys_delete_in, I.
    + intros [E|I]; [congruence|auto].
Qed.

Lemma keys_set_nodup (k : Z) (v : V) m :
  NoDup (JsMap.keys m) -> NoDup (JsMap.keys (JsMap.set k v m)).
Proof.
  intros ND. destruct (in_dec Z.eq_dec k (JsMap.keys m)) as [I|N].
  - now rewrite keys_set_same.
  - rewrite keys_set_new by exact N.
    apply NoDup_app; [exact ND|repeat constructor; simpl; tauto|].
    intros x Hx [<-|[]]. exact (N Hx).
Qed.

Lemma size_set (k : Z) (v : V) m :
  JsMap.size (JsMap.set k v m) =
  JsMap.size m + if JsMap.has k m then 0 else 1.
Proof.
  unfold JsMap.size, JsMap.has.
  induction m as [|[k1 v1] m IH]; simpl JsMap.set; simpl JsMap.get.
  - simpl. lia.
  - destruct (k1 =? k).
    + cbn [length]. lia.
    + cbn [length]. rewrite !Nat2Z.inj_succ.
      destruct (JsMap.get k m); lia.
Qed.

Lemma has_false_iff (k : Z) m :
  JsMap.has k m = false <-> ~ In k (JsMap.keys m).
Proof.
  rewrite <- has_true_iff. destruct (JsMap.has k m); split; congruence.
Qed.

Lemma forall_set (P : Z * V -> Prop) (k : Z) (v : V) m :
  Forall P m -> P (k, v) -> Forall P (JsMap.set k v m).
Proof.
  intros F Pk. rewrite Forall_forall in *. intros [k' v'] I.
  apply in_set_inv in I as [->|I]; auto.
Qed.

Lemma forall_delete (P : Z * V -> Prop) (k : Z) m :
  Forall P m -> Forall P (JsMap.delete k m).
Proof.
  intros F. rewrite Forall_forall in *. intros x I.
  eapply F, in_delete_inv, I.
Qed.

End MapFacts.

Section Tracking.

Context {V : Type}.
Implicit Types c : LRUCache.t V.

Lemma tracked_updateUsage (k : Z) c :
  In k (JsMap.keys (LRUCache.cache c)) ->
  tracked c -> tracked (LRUCache.updateUsage k c).
Proof.
  intros I (A & N & F). unfold aligned in A.
  split; [|split]; simpl.
  - unfold aligned; simpl. rewrite keys_set_same; [exact A|].
    unfold JsMap.keys in *. now rewrite <- A.
  - exact N.
  - apply forall_set; [exact F|]. simpl.
    destruct (JsMap.get k (LRUCache.usage c)) as [n|] eqn:G; [|lia].
    apply get_some_in in G. rewrite Forall_forall in F.
    specialize (F _ G). simpl in F. lia.
Qed.

Lemma tracked_get (k : Z) c : tracked c -> tracked (snd (LRUCache.get k c)).
Proof.
  intros T. unfold LRUCache.get.
  destruct (JsMap.get k (LRUCache.cache c)) as [v|] eqn:G; [|exact T].
  apply tracked_updateUsage; [|exact T].
  apply get_some_in in G. change k with (fst (k, v)). now apply in_map.
Qed.

Lemma tracked_set (k : Z) (v : V) c c' :
  LRUCache.set k v c = Some c' -> tracked c -> tracked c'.
Proof.
  unfold LRUCache.set. intros E T.
  assert (X : exists c1,
             (if JsMap.size (LRUCache.cache c) >=? LRUCache.maxSize c
              then LRUCache.evictLeastUsed c else Some c) = Some c1 /\
             tracked c1).
  { destruct (_ >=? _); [|now exists c].
    unfold LRUCache.evictLeastUsed in *.
    destruct (LRUCache.leastUsedKey c) as [w|]; [|discriminate].
    eexists. split; [reflexivity|]. destruct T as (A & N & F).
    split; [|split]; simpl.
    - unfold aligned; simpl. now apply keys_delete_aligned.
    - now apply keys_delete_nodup.
    - now apply forall_delete. }
  destruct X as (c1 & E1 & A1 & N1 & F1). rewrite E1 in E.
  injection E as <-. split; [|split]; simpl.
  - unfold aligned; simpl. now apply keys_set_aligned.
  - now apply keys_set_nodup.
  - apply forall_set; [exact F1|]. simpl.
    destruct (JsMap.get k (LRUCache.usage c1)) as [n|] eqn:G; [|lia].
    apply get_some_in in G. rewrite Forall_forall in F1.
    specialize (F1 _ G). simpl in F1. lia.
Qed.

Lemma tracked_run (ops : list (LRUCache.Op V)) : forall c c',
  LRUCache.run ops c = Some c' -> tracked c -> tracked c'.
Proof.
  induction ops as [|o ops IH]; intros c c'; simpl.
  - now intros [= <-].
  - destruct (LRUCache.apply o c) as [c1|] eqn:A; [|discriminate].
    intros R T. apply (IH _ _ R).
    destruct o as [k|k v|]; simpl in A.
    + injection A as <-. now apply tracked_get.
    + eapply tracked_set; eauto.
    + injection A as <-. split; [reflexivity|]. split; constructor.
Qed.

Lemma tracked_new (C : Z) : tracked (@LRUCache.new V C).
Proof. split; [reflexivity|]. split; constructor. Qed.

End Tracking.

Lemma sortByCount_head_split (l : list (Z * Z)) (x : Z * Z) (r : list (Z * Z)) :
  LRUCache.sortByCount l = x :: r ->
  exists before after,
    l = before ++ x :: after /\
    (forall y, In y before -> snd x < snd y) /\
    (forall y, In y after -> snd x <= snd y).
Proof.
  revert x r. induction l as [|a l IH]; simpl; intros x r E; [discriminate|].
  destruct (LRUCache.sortByCount l) as [|b s] eqn:Sl; simpl in E.
  - injection E as <- _. exists [], l. split; [reflexivity|].
    split; [intros y []|]. intros y Hy.
    apply sortByCount_in in Hy. rewrite Sl in Hy. destruct Hy.
  - destruct (IH b s eq_refl) as (bf & af & -> & Lt & Le).
    destruct (Z.leb_spec (snd a) (snd b)) as [C|C]; injection E as <- _.
    + exists [], (bf ++ b :: af). split; [reflexivity|].
      split; [intros y []|]. intros y Hy.
      apply in_app_or in Hy as [Hy|[<-|Hy]];
        [specialize (Lt y Hy)|..|specialize (Le y Hy)]; lia.
    + exists (a :: bf), af. split; [reflexivity|]. split; [|exact Le].
      intros y [<-|Hy]; [lia|auto].
Qed.

(** X1. On a cache built with capacity [C >= 1] by its own calls,
    [set(key, value)] does not throw and a [get(key)] right after it
    returns [value]. *)
Theorem LRUCache_get_after_set (V : Type) (C : Z)
    (ops : list (LRUCache.Op V)) (c : LRUCache.t V) (key : Z) (value : V) :
  1 <= C ->
  LRUCache.run ops (LRUCache.new C) = Some c ->
  exists c',
    LRUCache.set key value c = Some c' /\
    fst (LRUCache.get key c') = Some value.
Proof.
  intros HC R.
  destruct (wellFormed_run ops (LRUCache.new C) (wellFormed_new C HC))
    as (c0 & E & W & _).
  rewrite R in E. injection E as <-.
  destruct (wellFormed_set key value c W) as (c' & S & _ & G & _).
  exists c'. split; [exact S|]. unfold LRUCache.get. now rewrite G.
Qed.

Lemma LRUCache_get_after_set_witness :
  exists c',
    LRUCache.set 3 30 (LRUCache.mk 2 [(1, 10); (2, 20)] [(1, 1); (2, 1)])
      = Some c' /\
    fst (LRUCache.get 3 c') = Some 30.
Proof.
  apply (LRUCache_get_after_set Z 2
           [LRUCache.OpSet 1 10; LRUCache.OpSet 2 20]).
  - lia.
  - reflexivity.
Defined.

(** X2. In every cache reached from a new one by [get], [set] and
    [clear], a key has a usage count exactly when it is cached, no key is
    stored twice, and every usage count is at least 1. *)
Theorem LRUCache_usage_tracks_keys (V : Type) (C : Z)
    (ops : list (LRUCache.Op V)) (c : LRUCache.t V) :
  LRUCache.run ops (LRUCache.new C) = Some c ->
  (forall k, JsMap.has k (LRUCache.usage c) = JsMap.has k (LRUCache.cache c)) /\
  NoDup (JsMap.keys (LRUCache.cache c)) /\
  (forall k n, JsMap.get k (LRUCache.usage c) = Some n -> 1 <= n).
Proof.
  intros R. destruct (tracked_run ops _ _ R (tracked_new C)) as (A & N & F).
  split; [|split; [exact N|]].
  - intros k. unfold aligned in A.
    destruct (JsMap.has k (LRUCache.cache c)) eqn:H.
    + apply has_true_iff. rewrite <- A. now apply has_true_iff.
    + apply has_false_iff. rewrite <- A. now apply has_false_iff.
  - intros k n G. apply get_some_in in G. rewrite Forall_forall in F.
    exact (F _ G).
Qed.

Lemma LRUCache_usage_tracks_keys_witness :
  (forall k,
      JsMap.has k (LRUCache.usage (LRUCache.mk 2 [(2, 20); (3, 30)]
                                               [(2, 2); (3, 1)])) =
      JsMap.has k (LRUCache.cache (LRUCache.mk 2 [(2, 20); (3, 30)]
                                               [(2, 2); (3, 1)]))) /\
  NoDup (JsMap.keys (LRUCache.cache (LRUCache.mk 2 [(2, 20); (3, 30)]
                                                 [(2, 2); (3, 1)]))) /\
  (forall k n,
      JsMap.get k (LRUCache.usage (LRUCache.mk 2 [(2, 20); (3, 30)]
                                               [(2, 2); (3, 1)])) = Some n ->
      1 <= n).
Proof.
  apply (LRUCache_usage_tracks_keys Z 2
           [LRUCache.OpSet 1 10; LRUCache.OpSet 2 20; LRUCache.OpGet 2;
            LRUCache.OpSet 3 30]).
  reflexivity.
Defined.

(** X3. A [get] that misses returns [undefined] and leaves the cache as
    it is; a [get] that hits returns the stored value, raises the usage
    count of that key by one, and changes no entry and no other count. *)
Theorem LRUCache_get_counts_once (V : Type) (c : LRUCache.t V) (key : Z) :
  match JsMap.get key (LRUCache.cache c) with
  | None => LRUCache.get key c = (None, c)
  | Some v =>
      fst (LRUCache.get key c) = Some v /\
      LRUCache.cache (snd (LRUCache.get key c)) = LRUCache.cache c /\
      LRUCache.maxSize (snd (LRUCache.get key c)) = LRUCache.maxSize c /\
      JsMap.get key (LRUCache.usage (snd (LRUCache.get key c))) =
        Some (match JsMap.get key (LRUCache.usage c) with
              | Some n => n
              | None => 0
              end + 1) /\
      forall k, k <> key ->
                JsMap.get k (LRUCache.usage (snd (LRUCache.get key c))) =
                JsMap.get k (LRUCache.usage c)
  end.
Proof.
  unfold LRUCache.get.
  destruct (JsMap.get key (LRUCache.cache c)) as [v|]; [|reflexivity].
  simpl. repeat split.
  - apply get_set_same.
  - intros k N. now apply get_set_other.
Qed.

(** X4. While the cache has room ([size() < maxSize]), [set(key, value)]
    evicts nothing: the value is stored, every other key keeps its entry,
    and the size grows by one for a new key and stays for a present
    one. *)
Theorem LRUCache_set_with_room (V : Type) (c : LRUCache.t V)
    (key : Z) (value : V) :
  LRUCache.size c < LRUCache.maxSize c ->
  exists c',
    LRUCache.set key value c = Some c' /\
    JsMap.get key (LRUCache.cache c') = Some value /\
    (forall k, k <> key ->
               JsMap.get k (LRUCache.cache c') = JsMap.get k (LRUCache.cache c)) /\
    LRUCache.size c' =
      LRUCache.size c + if JsMap.has key (LRUCache.cache c) then 0 else 1.
Proof.
  intros Room. unfold LRUCache.set, LRUCache.size in *.
  destruct (Z.geb_spec (JsMap.size (LRUCache.cache c)) (LRUCache.maxSize c));
    [lia|].
  eexists. split; [reflexivity|]. simpl.
  split; [apply get_set_same|].
  split; [intros k N; now apply get_set_other|apply size_set].
Qed.

Lemma LRUCache_set_with_room_witness :
  exists c',
    LRUCache.set 2 20 (LRUCache.mk 3 [(1, 10)] [(1, 1)]) = Some c' /\
    JsMap.get 2 (LRUCache.cache c') = Some 20 /\
    (forall k, k <> 2 ->
               JsMap.get k (LRUCache.cache c') =
               JsMap.get k (LRUCache.cache (LRUCache.mk 3 [(1, 10)] [(1, 1)]))) /\
    LRUCache.size c' =
      LRUCache.size (LRUCache.mk 3 [(1, 10)] [(1, 1)]) +
      if JsMap.has 2 (LRUCache.cache (LRUCache.mk 3 [(1, 10)] [(1, 1)]))
      then 0 else 1.
Proof.
  apply (LRUCache_set_with_room Z (LRUCache.mk 3 [(1, 10)] [(1, 1)]) 2 20).
  reflexivity.
Defined.

(** X5. The key [evictLeastUsed] removes is the earliest inserted among
    those with the lowest usage count: every key before it in the usage
    map has a strictly higher count and every key after it a count at
    least as high.  There is no such key exactly when the usage map is
    empty, where the source fails on [undefined]. *)
Theorem LRUCache_victim_is_earliest_least (V : Type) (c : LRUCache.t V) :
  match LRUCache.leastUsedKey c with
  | None => LRUCache.usage c = [] /\ LRUCache.evictLeastUsed c = None
  | Some k =>
      exists before n after,
        LRUCache.usage c = before ++ (k, n) :: after /\
        (forall y, In y before -> n < snd y) /\
        (forall y, In y after -> n <= snd y) /\
        LRUCache.evictLeastUsed c =
          Some (LRUCache.mk (LRUCache.maxSize c)
                            (JsMap.delete k (LRUCache.cache c))
                            (JsMap.delete k (LRUCache.usage c)))
  end.
Proof.
  unfold LRUCache.evictLeastUsed.
  destruct (LRUCache.leastUsedKey c) as [k|] eqn:L;
    unfold LRUCache.leastUsedKey in L;
    destruct (LRUCache.sortByCount (LRUCache.usage c)) as [|[k' n] r] eqn:S;
    try discriminate.
  - injection L as ->.
    destruct (sortByCount_head_split _ _ _ S) as (bf & af & E & Lt & Le).
    exists bf, n, af. auto.
  - split; [|reflexivity].
    destruct (LRUCache.usage c) as [|x u]; [reflexivity|].
    assert (I : In x (LRUCache.sortByCount (x :: u)))
      by (apply sortByCount_in; now left).
    rewrite S in I. destruct I.
Qed.

(** X6. On a full cache (built with capacity [C >= 1] by its own calls),
    [set] of a key that is not cached replaces the victim by the new
    entry: the size stays [C], the victim is gone, the new value is
    stored, and every other key keeps its entry. *)
Theorem LRUCache_set_new_key_when_full (V : Type) (C : Z)
    (ops : list (LRUCache.Op V)) (c : LRUCache.t V) (key : Z) (value : V) :
  1 <= C ->
  LRUCache.run ops (LRUCache.new C) = Some c ->
  LRUCache.size c >= C ->
  JsMap.has key (LRUCache.cache c) = false ->
  exists victim c',
    LRUCache.leastUsedKey c = Some victim /\
    LRUCache.set key value c = Some c' /\
    LRUCache.size c' = C /\
    JsMap.get key (LRUCache.cache c') = Some value /\
    JsMap.has victim (LRUCache.cache c') = false /\
    (forall k, k <> victim -> k <> key ->
               JsMap.get k (LRUCache.cache c') = JsMap.get k (LRUCache.cache c)).
Proof.
  intros HC R F New.
  destruct (wellFormed_run ops (LRUCache.new C) (wellFormed_new C HC))
    as (c0 & E & W & M).
  rewrite R in E. injection E as <-. simpl in M.
  destruct (tracked_run ops _ _ R (tracked_new C)) as (_ & ND & _).
  pose proof W as (_ & _ & Le).
  assert (F' : LRUCache.maxSize c <= LRUCache.size c) by lia.
  destruct (full_cache_victim c W F') as (victim & n & L & _ & _ & K).
  assert (Ne : victim <> key).
  { intros ->. apply has_false_iff in New. contradiction. }
  destruct (keys_delete_nodup victim (LRUCache.cache c) ND) as [_ Gone].
  exists victim. unfold LRUCache.set, LRUCache.evictLeastUsed. rewrite L.
  destruct (Z.geb_spec (JsMap.size (LRUCache.cache c)) (LRUCache.maxSize c));
    [|unfold LRUCache.size in F'; lia].
  eexists. split; [reflexivity|]. split; [reflexivity|]. simpl.
  split; [|split; [apply get_set_same|split]].
  - unfold LRUCache.size in *; simpl. rewrite size_set.
    rewrite size_delete_in by exact K.
    replace (JsMap.has key (JsMap.delete victim (LRUCache.cache c)))
      with false; [lia|].
    symmetry. apply has_false_iff. intros I.
    apply keys_delete_in in I. apply has_false_iff in New. contradiction.
  - unfold JsMap.has. rewrite get_set_other by exact Ne.
    apply has_false_iff in Gone. unfold JsMap.has in Gone.
    exact Gone.
  - intros k N1 N2. rewrite get_set_other by exact N2.
    now apply get_delete_other.
Qed.

Lemma LRUCache_set_new_key_when_full_witness :
  exists victim c',
    LRUCache.leastUsedKey
      (LRUCache.mk 2 [(1, 10); (2, 20)] [(1, 1); (2, 2)]) = Some victim /\
    LRUCache.set 3 30 (LRUCache.mk 2 [(1, 10); (2, 20)] [(1, 1); (2, 2)])
      = Some c' /\
    LRUCache.size c' = 2 /\
    JsMap.get 3 (LRUCache.cache c') = Some 30 /\
    JsMap.has victim (LRUCache.cache c') = false /\
    (forall k, k <> victim -> k <> 3 ->
               JsMap.get k (LRUCache.cache c') =
               JsMap.get k (LRUCache.cache
                              (LRUCache.mk 2 [(1, 10); (2, 20)]
                                           [(1, 1); (2, 2)]))).
Proof.
  apply (LRUCache_set_new_key_when_full Z 2
           [LRUCache.OpSet 1 10; LRUCache.OpSet 2 20; LRUCache.OpGet 2]).
  - lia.
  - reflexivity.
  - vm_compute. discriminate.
  - reflexivity.
Defined.

(** * Further properties of the memory manager *)

(** X7. While the heap readings stay at or below the threshold, every
    call of [checkMemory], now and later, reports OK. *)
Theorem checkMemory_calm_heap (m : MemoryManager.t) (k : nat) :
  (forall i, MemoryManager.heapUsed m i <= MemoryManager.warningThreshold m) ->
  fst (MemoryManager.checkMemory (MemoryManager.after k m)) = true.
Proof. intros H. exact (calm_heap_alwaysOK m H k). Qed.

Lemma checkMemory_calm_heap_witness :
  fst (MemoryManager.checkMemory
         (MemoryManager.after 5
            (MemoryManager.new (fun k => 2000 * Z.of_nat k)
                               (fun _ => 1000) 350))) = true.
Proof.
  apply (checkMemory_calm_heap
           (MemoryManager.new (fun k => 2000 * Z.of_nat k)
                              (fun _ => 1000) 350) 5).
  intros i. vm_compute. discriminate.
Defined.

(** X8. The check is rate limited: as long as the clock reads less than
    [checkInterval] past [lastCheck], every call reports OK without
    reading the heap and without moving [lastCheck], whatever the heap
    holds. *)
Theorem checkMemory_within_interval (m : MemoryManager.t) (k : nat) :
  (forall i, MemoryManager.dateNow m i - MemoryManager.lastCheck m
             < MemoryManager.checkInterval m) ->
  fst (MemoryManager.checkMemory (MemoryManager.after k m)) = true /\
  MemoryManager.heapReads (MemoryManager.after k m) = MemoryManager.heapReads m /\
  MemoryManager.lastCheck (MemoryManager.after k m) = MemoryManager.lastCheck m.
Proof.
  revert m. induction k as [|k IH]; intros m H; simpl.
  - unfold MemoryManager.checkMemory.
    destruct (Z.ltb_spec
                (MemoryManager.dateNow m (MemoryManager.clockReads m)
                 - MemoryManager.lastCheck m)
                (MemoryManager.checkInterval m)) as [_|G]; [auto|].
    specialize (H (MemoryManager.clockReads m)). lia.
  - assert (E : snd (MemoryManager.checkMemory m) =
                MemoryManager.mk
                  (MemoryManager.warningThreshold m)
                  (MemoryManager.lastCheck m) (MemoryManager.checkInterval m)
                  (MemoryManager.dateNow m) (MemoryManager.heapUsed m)
                  (S (MemoryManager.clockReads m))
                  (MemoryManager.heapReads m)).
    { unfold MemoryManager.checkMemory.
      destruct (Z.ltb_spec
                  (MemoryManager.dateNow m (MemoryManager.clockReads m)
                   - MemoryManager.lastCheck m)
                  (MemoryManager.checkInterval m)) as [_|G]; [reflexivity|].
      specialize (H (MemoryManager.clockReads m)). lia. }
    rewrite E.
    match goal with |- context [MemoryManager.after k ?m'] =>
      destruct (IH m' H) as (A & B & C) end.
    split; [exact A|]. split; [exact B|exact C].
Qed.

Lemma checkMemory_within_interval_witness :
  fst (MemoryManager.checkMemory
         (MemoryManager.after 4
            (MemoryManager.new (fun _ => 0) (fun _ => 1000000000) 350)))
    = true /\
  MemoryManager.heapReads
    (MemoryManager.after 4
       (MemoryManager.new (fun _ => 0) (fun _ => 1000000000) 350)) =
  MemoryManager.heapReads
    (MemoryManager.new (fun _ => 0) (fun _ => 1000000000) 350) /\
  MemoryManager.lastCheck
    (MemoryManager.after 4
       (MemoryManager.new (fun _ => 0) (fun _ => 1000000000) 350)) =
  MemoryManager.lastCheck
    (MemoryManager.new (fun _ => 0) (fun _ => 1000000000) 350).
Proof.
  apply (checkMemory_within_interval
           (MemoryManager.new (fun _ => 0) (fun _ => 1000000000) 350) 4).
  intros i. vm_compute. reflexivity.
Defined.

(** * Further properties of the sequence engine *)

Lemma returned_positive fuel n useCache s r :
  fst (calculateSequence fuel n useCache s) = Returned r -> 0 < n.
Proof.
  unfold calculateSequence. destruct (Z.leb_spec n 0); [discriminate|auto].
Qed.

Lemma lookup_present key s e :
  JsMap.get key (LRUCache.cache (cache s)) = Some e ->
  fst (lookup true key s) = Some e.
Proof.
  intros G. unfold lookup, LRUCache.get. now rewrite G.
Qed.

Lemma lookup_entries useCache key s :
  LRUCache.cache (cache (snd (lookup useCache key s))) =
  LRUCache.cache (cache s).
Proof.
  unfold lookup, LRUCache.get. destruct useCache; [|reflexivity].
  now destruct (JsMap.get key (LRUCache.cache (cache s))).
Qed.

Lemma set_stores {V} (k : Z) (v : V) (c c' : LRUCache.t V) :
  LRUCache.set k v c = Some c' ->
  JsMap.get k (LRUCache.cache c') = Some v /\
  forall x, In x (LRUCache.cache c') -> x = (k, v) \/ In x (LRUCache.cache c).
Proof.
  unfold LRUCache.set, LRUCache.evictLeastUsed.
  destruct (_ >=? _).
  - destruct (LRUCache.leastUsedKey c) as [w|]; [|discriminate].
    intros [= <-]. simpl. split; [apply get_set_same|].
    intros [k' v'] I. apply in_set_inv in I as [I|I]; auto.
    right. eapply in_delete_inv, I.
  - intros [= <-]. simpl. split; [apply get_set_same|].
    intros [k' v'] I. apply in_set_inv in I as [I|I]; auto.
Qed.

Lemma loop_hit_flag fuel useCache : forall currentNum steps sequence s r s',
  loop fuel useCache currentNum steps sequence s = (Hit r, s') ->
  Trajectory.cacheHit r = true.
Proof.
  induction fuel as [|fuel IH]; intros cur steps seq s r s';
    rewrite loop_unfold; destruct (cur =? 1); try discriminate.
  destruct (lookup useCache cur (pollAndClear steps s)) as [[h|] s2].
  - now intros [= <- <-].
  - destruct (collatzStep cur) as [e|next]; [discriminate|].
    destruct (_ >? _); [discriminate|]. apply IH.
Qed.

Lemma loop_entries fuel useCache : forall currentNum steps sequence s x,
  In x (LRUCache.cache
          (cache (snd (loop fuel useCache currentNum steps sequence s)))) ->
  In x (LRUCache.cache (cache s)).
Proof.
  assert (P : forall steps s x,
             In x (LRUCache.cache (cache (pollAndClear steps s))) ->
             In x (LRUCache.cache (cache s))).
  { intros steps s x. destruct (pollAndClear_frame steps s) as [E|E];
      rewrite E; [auto|intros []]. }
  induction fuel as [|fuel IH]; intros cur steps seq s x;
    rewrite loop_unfold; destruct (cur =? 1); try (simpl; tauto).
  pose proof (lookup_entries useCache cur (pollAndClear steps s)) as L.
  destruct (lookup useCache cur (pollAndClear steps s)) as [[h|] s2];
    simpl in L.
  - simpl. rewrite L. apply P.
  - destruct (collatzStep cur) as [e|next]; [simpl; rewrite L; apply P|].
    destruct (_ >? _); [simpl; rewrite L; apply P|].
    intros I. apply IH in I. rewrite L in I. eapply P, I.
Qed.

(** X9. [calculateSequence(1, useCache)] returns [steps = 0] and
    [sequence = [1]] from every state the engine can be in, without
    entering the loop. *)
Theorem calculateSequence_one s fuel useCache :
  reachable s ->
  exists r,
    fst (calculateSequence fuel 1 useCache s) = Returned r /\
    Trajectory.steps r = 0 /\
    Trajectory.sequence r = [1].
Proof.
  intros R. apply reachable_inv in R. unfold calculateSequence.
  change (1 <=? 0) with false. cbv iota.
  destruct (lookup useCache 1 s) as [[cached|] s1] eqn:L.
  - destruct (lookup_found _ _ _ _ _ L) as [_ G]. destruct R as [_ Ev].
    destruct (Ev 1 cached (get_some_in _ _ _ G)) as (tail & O & S & Q & _).
    assert (tail = []) by (eapply orbit_deterministic; [exact O|constructor]).
    subst tail. eexists. split; [reflexivity|]. simpl. auto.
  - pose proof (lookup_inv _ _ _ _ _ L R) as H1.
    rewrite loop_unfold. change (1 =? 1) with true. cbv iota.
    destruct useCache.
    + assert (Ve : validEntry 1 (Trajectory.mk 0 [1] false)).
      { exists []. simpl. unfold MAX_SAFE_INTEGER.
        repeat split; try lia. constructor. }
      destruct (cacheInv_set 1 _ _ H1 Ve) as (c' & Es & _). rewrite Es.
      eexists. split; [reflexivity|]. simpl. auto.
    + eexists. split; [reflexivity|]. simpl. auto.
Qed.

Lemma calculateSequence_one_witness :
  exists r,
    fst (calculateSequence 0 1 true warmCalculator) = Returned r /\
    Trajectory.steps r = 0 /\
    Trajectory.sequence r = [1].
Proof.
  apply (calculateSequence_one warmCalculator 0 true).
  apply reach_batch, reach_new. vm_compute. discriminate.
Defined.

(** X10. A cached call that computes its result ([cacheHit] false) stores
    it under [n]: the next cached call for [n] returns the same [steps]
    and [sequence] with [cacheHit] true, straight from the cache. *)
Theorem calculateSequence_repeat_hits s fuel fuel' n r :
  fst (calculateSequence fuel n true s) = Returned r ->
  Trajectory.cacheHit r = false ->
  fst (calculateSequence fuel' n true
         (snd (calculateSequence fuel n true s))) =
  Returned (Trajectory.mk (Trajectory.steps r) (Trajectory.sequence r) true).
Proof.
  intros E Miss. pose proof (returned_positive _ _ _ _ _ E) as P.
  assert (G : JsMap.get n
                (LRUCache.cache (cache (snd (calculateSequence fuel n true s))))
              = Some r).
  { revert E. unfold calculateSequence. destruct (Z.leb_spec n 0); [lia|].
    destruct (lookup true n s) as [[cached|] s1].
    { intros [= <-]. discriminate. }
    destruct (loop fuel true n 0 [n] s1) as [[st sq|h|e|] s2] eqn:Lp.
    - destruct (LRUCache.set n (Trajectory.mk st sq false) (cache s2))
        as [c|] eqn:Es; [|discriminate].
      intros [= <-]. simpl. apply (set_stores _ _ _ _ Es).
    - intros [= <-]. apply loop_hit_flag in Lp. congruence.
    - discriminate.
    - discriminate. }
  unfold calculateSequence at 1. destruct (Z.leb_spec n 0); [lia|].
  pose proof (lookup_present _ _ _ G) as L.
  destruct (lookup true n (snd (calculateSequence fuel n true s)))
    as [[cached|] s1]; simpl in L; [|discriminate].
  injection L as ->. reflexivity.
Qed.

Lemma calculateSequence_repeat_hits_witness :
  fst (calculateSequence 0 7 true
         (snd (calculateSequence 20 7 true (stillCalculator 2)))) =
  Returned (Trajectory.mk 16
              [7; 22; 11; 34; 17; 52; 26; 13; 40; 20; 10; 5; 16; 8; 4; 2; 1]
              true).
Proof.
  apply (calculateSequence_repeat_hits (stillCalculator 2) 20 0 7
           (Trajectory.mk 16
              [7; 22; 11; 34; 17; 52; 26; 13; 40; 20; 10; 5; 16; 8; 4; 2; 1]
              false)).
  - vm_compute. reflexivity.
  - reflexivity.
Defined.

(** X11. A call stores nothing under intermediate values: every entry
    the cache holds after [calculateSequence(n, useCache)] was there
    before, unchanged, or is the entry of [n] itself holding the returned
    result. *)
Theorem calculateSequence_stores_only_n s fuel n useCache k e :
  In (k, e)
     (LRUCache.cache (cache (snd (calculateSequence fuel n useCache s)))) ->
  In (k, e) (LRUCache.cache (cache s)) \/
  (k = n /\ useCache = true /\
   fst (calculateSequence fuel n useCache s) = Returned e).
Proof.
  unfold calculateSequence. destruct (n <=? 0); [auto|].
  pose proof (lookup_entries useCache n s) as L.
  destruct (lookup useCache n s) as [[cached|] s1]; simpl in L.
  { simpl. rewrite L. auto. }
  pose proof (loop_entries fuel useCache n 0 [n] s1 (k, e)) as X.
  rewrite L in X.
  destruct (loop fuel useCache n 0 [n] s1) as [[st sq|h|er|] s2];
    simpl in X; simpl; auto.
  destruct useCache; simpl; auto.
  destruct (LRUCache.set n (Trajectory.mk st sq false) (cache s2))
    as [c|] eqn:Es; simpl; auto.
  intros I. apply (set_stores _ _ _ _ Es) in I as [[= -> ->]|I]; auto.
Qed.

Lemma calculateSequence_stores_only_n_witness :
  In (6, Trajectory.mk 8 [6; 3; 10; 5; 16; 8; 4; 2; 1] false)
     (LRUCache.cache (cache (stillCalculator 2))) \/
  (6 = 6 /\ true = true /\
   fst (calculateSequence 20 6 true (stillCalculator 2)) =
   Returned (Trajectory.mk 8 [6; 3; 10; 5; 16; 8; 4; 2; 1] false)).
Proof.
  apply (calculateSequence_stores_only_n (stillCalculator 2) 20 6 true 6
           (Trajectory.mk 8 [6; 3; 10; 5; 16; 8; 4; 2; 1] false)).
  vm_compute. left. reflexivity.
Defined.

Lemma loop_uncached_pure fuel : forall currentNum steps sequence s1 s2,
  fst (loop fuel false currentNum steps sequence s1) =
  fst (loop fuel false currentNum steps sequence s2).
Proof.
  induction fuel as [|fuel IH]; intros cur steps seq s1 s2;
    rewrite !(loop_unfold _ false cur); destruct (cur =? 1); try reflexivity.
  rewrite !lookup_uncached.
  destruct (collatzStep cur) as [e|next]; [reflexivity|].
  destruct (_ >? _); [reflexivity|]. apply IH.
Qed.

(** X12. The outcome of an uncached call depends on [n] alone: two
    calculators in any two states, whatever their caches, monitors and
    settings, give the same result or the same error. *)
Theorem uncached_result_is_pure fuel n s1 s2 :
  fst (calculateSequence fuel n false s1) =
  fst (calculateSequence fuel n false s2).
Proof.
  unfold calculateSequence. destruct (n <=? 0); [reflexivity|].
  rewrite !lookup_uncached.
  pose proof (loop_uncached_pure fuel n 0 [n] s1 s2) as E.
  destruct (loop fuel false n 0 [n] s1) as [o1 t1].
  destruct (loop fuel false n 0 [n] s2) as [o2 t2].
  simpl in E. subst o2. now destruct o1.
Qed.

Lemma collatzStep_rule k next :
  collatzStep k = inr next -> 0 < k -> k <> 1 ->
  collatzRule k next /\ 0 < next.
Proof.
  unfold collatzStep, safeMultiply, isSafeInteger, collatzRule.
  rewrite Zrem_even. intros E P N.
  destruct (Z.even k) eqn:Ev.
  - change (0 =? 0) with true in E. injection E as <-.
    split; [now left|]. apply Z.div_str_pos. split; [lia|].
    destruct (Z.eq_dec k 1); [contradiction|].
    assert (k <> 1 -> 2 <= k) by lia. auto.
  - rewrite Z.sgn_pos in E by exact P. change (1 =? 0) with false in E.
    destruct ((- MAX_SAFE_INTEGER <=? k * 3) && (k * 3 <=? MAX_SAFE_INTEGER))
      eqn:Safe; [|discriminate].
    injection E as <-. apply andb_true_iff in Safe as [_ Le].
    apply Z.leb_le in Le. split; [|lia]. right.
    rewrite <- Z.negb_even, Ev. repeat split; lia.
Qed.

Lemma orbit_rule k tail :
  orbit k tail -> 0 < k ->
  Forall (fun x => 1 <= x) (k :: tail) /\
  forall i a b,
    nth_error (k :: tail) i = Some a ->
    nth_error (k :: tail) (S i) = Some b ->
    a <> 1 /\ collatzRule a b.
Proof.
  induction 1 as [|k next tail N E O IH]; intros P.
  - split; [repeat constructor; lia|].
    intros i a b _ Hb. simpl in Hb. now destruct i.
  - destruct (collatzStep_rule k next E P N) as [Rule Pn].
    destruct (IH Pn) as [F Adj]. split; [constructor; [lia|exact F]|].
    intros [|i] a b Ha Hb.
    + simpl in Ha, Hb. injection Ha as <-. injection Hb as <-. auto.
    + apply (Adj i); assumption.
Qed.

(** X13. Every sequence [calculateSequence] returns is a Collatz
    trajectory: all its elements are at least 1, no element before the
    last is 1, and each element is followed by its half when it is even
    and by its triple plus one, the triple within the safe integers, when
    it is odd.  This holds for results taken from the cache as well. *)
Theorem returned_sequence_follows_rule s fuel n useCache r :
  reachable s ->
  fst (calculateSequence fuel n useCache s) = Returned r ->
  Forall (fun x => 1 <= x) (Trajectory.sequence r) /\
  forall i a b,
    nth_error (Trajectory.sequence r) i = Some a ->
    nth_error (Trajectory.sequence r) (S i) = Some b ->
    a <> 1 /\ collatzRule a b.
Proof.
  intros R E. apply reachable_inv in R.
  pose proof (returned_positive _ _ _ _ _ E) as P.
  destruct (calculateSequence_sound fuel n useCache s R) as [_ X].
  destruct (X r E) as (tail & O & _ & Q). rewrite Q.
  now apply orbit_rule.
Qed.

Lemma returned_sequence_follows_rule_witness :
  Forall (fun x => 1 <= x) [6; 3; 10; 5; 16; 8; 4; 2; 1] /\
  forall i a b,
    nth_error [6; 3; 10; 5; 16; 8; 4; 2; 1] i = Some a ->
    nth_error [6; 3; 10; 5; 16; 8; 4; 2; 1] (S i) = Some b ->
    a <> 1 /\ collatzRule a b.
Proof.
  apply (returned_sequence_follows_rule warmCalculator 50 6 true
           (Trajectory.mk 8 [6; 3; 10; 5; 16; 8; 4; 2; 1] true)).
  - apply reach_batch, reach_new. vm_compute. discriminate.
  - vm_compute. reflexivity.
Defined.

(** * Further properties of the batches *)

(** A cached run of the loop is over no later than the uncached one: it
    takes the same steps unless a hit ends it earlier. *)
Lemma loop_finishes_with fuel useCache : forall currentNum steps sequence s1 s2,
  fst (loop fuel false currentNum steps sequence s1) <> Starved ->
  fst (loop fuel useCache currentNum steps sequence s2) <> Starved.
Proof.
  induction fuel as [|fuel IH]; intros cur steps seq s1 s2;
    rewrite !(loop_unfold _ _ cur); destruct (cur =? 1).
  - intros _. discriminate.
  - intros H. exfalso. apply H. reflexivity.
  - intros _. discriminate.
  - rewrite lookup_uncached.
    destruct (lookup useCache cur (pollAndClear steps s2)) as [[h|] t2];
      [intros _; discriminate|].
    destruct (collatzStep cur) as [e|next]; [intros _; discriminate|].
    destruct (_ >? _); [intros _; discriminate|]. apply IH.
Qed.

Lemma calculateSequence_finishes_with fuel n useCache s1 s2 :
  fst (calculateSequence fuel n false s1) <> OutOfFuel ->
  fst (calculateSequence fuel n useCache s2) <> OutOfFuel.
Proof.
  unfold calculateSequence. destruct (n <=? 0); [intros _; discriminate|].
  rewrite lookup_uncached.
  destruct (lookup useCache n s2) as [[cached|] t2]; [intros _; discriminate|].
  pose proof (loop_finishes_with fuel useCache n 0 [n] s1 t2) as X.
  destruct (loop fuel useCache n 0 [n] t2) as [[st2 sq2|h2|e2|] u2].
  - intros _. destruct useCache; [|discriminate].
    destruct (LRUCache.set n (Trajectory.mk st2 sq2 false) (cache u2));
      discriminate.
  - intros _. discriminate.
  - intros _. discriminate.
  - intros H. exfalso. simpl in X. apply X; [|reflexivity].
    destruct (loop fuel false n 0 [n] s1) as [[st1 sq1|h1|e1|] u1];
      simpl in *; try discriminate.
    exfalso. apply H. reflexivity.
Qed.

Lemma processFrom_returns fuel useCache s0 todo : forall i results s,
  (forall j, (j < todo)%nat ->
             fst (calculateSequence fuel (i + Z.of_nat j) false s0)
             <> OutOfFuel) ->
  exists rs,
    fst (processFrom fuel todo i useCache results s) = Returned rs.
Proof.
  induction todo as [|todo IH]; intros i results s Fin; simpl.
  - eexists. reflexivity.
  - pose proof (calculateSequence_finishes_with fuel i useCache s0
                  (pollAndPause i s)) as X.
    destruct (calculateSequence fuel i useCache (pollAndPause i s))
      as [[r|e|] s1]; simpl in X.
    + apply IH. intros j Hj.
      replace (i + 1 + Z.of_nat j) with (i + Z.of_nat (S j)) by lia.
      apply Fin. lia.
    + eexists. reflexivity.
    + exfalso. apply X; [|reflexivity].
      specialize (Fin O). rewrite Z.add_0_r in Fin. apply Fin. lia.
Qed.

(** X14. [processBatch] returns a list and never lets an error out: for
    a range within the safe integers, where the counter [i++] is exact,
    and as soon as the computation of each number of the range comes to
    an end, be it by an error, the batch returns its entries, cached or
    not and whatever the state. *)
Theorem processBatch_returns_a_list s fuel start end_ useCache :
  - MAX_SAFE_INTEGER <= start ->
  end_ <= MAX_SAFE_INTEGER ->
  (forall i, start <= i <= end_ ->
             fst (calculateSequence fuel i false s) <> OutOfFuel) ->
  exists rs,
    fst (processBatch fuel start end_ useCache s) = Returned rs /\
    (length rs <= Z.to_nat (end_ - start + 1))%nat.
Proof.
  intros Lo Hi Fin. unfold processBatch.
  destruct (processFrom_returns fuel useCache s
              (Z.to_nat (end_ - start + 1)) start [] s) as (rs & E).
  { intros j Hj. apply Fin. lia. }
  exists rs. split; [exact E|].
  destruct (processFrom_numbers _ _ _ _ _ _ _ E) as (k & K & Q).
  apply (f_equal (@length Z)) in Q. simpl in Q.
  rewrite !length_map, length_seq in Q. lia.
Qed.

Lemma processBatch_returns_a_list_witness :
  exists rs,
    fst (processBatch 400 3002399751580330 3002399751580332 true
           (stillCalculator 2)) = Returned rs /\
    (length rs <= Z.to_nat (3002399751580332 - 3002399751580330 + 1))%nat.
Proof.
  apply (processBatch_returns_a_list (stillCalculator 2) 400
           3002399751580330 3002399751580332 true).
  - vm_compute. discriminate.
  - vm_compute. discriminate.
  - intros i Hi.
    assert (D : i = 3002399751580330 \/ i = 3002399751580331 \/
                i = 3002399751580332) by lia.
    destruct D as [-> | [-> | ->]]; vm_compute; discriminate.
Defined.

Lemma extends_wellShaped n r :
  extends n 0 [n] (Trajectory.steps r) (Trajectory.sequence r) ->
  wellShaped n r.
Proof.
  intros (tail & O & S & Q). unfold wellShaped. rewrite Q, S.
  split; [reflexivity|]. split; [now apply orbit_last|].
  simpl length. lia.
Qed.

Lemma processFrom_shaped fuel useCache todo : forall i results s rs,
  cacheInv (cache s) ->
  Forall (fun e => wellShaped (BatchEntry.number e) (BatchEntry.result e))
         results ->
  fst (processFrom fuel todo i useCache results s) = Returned rs ->
  Forall (fun e => wellShaped (BatchEntry.number e) (BatchEntry.result e)) rs.
Proof.
  induction todo as [|todo IH]; intros i results s rs H F; simpl.
  - now intros [= <-].
  - assert (H0 : cacheInv (cache (pollAndPause i s)))
      by now rewrite pollAndPause_cache.
    destruct (calculateSequence_sound fuel i useCache _ H0) as [H1 X].
    destruct (calculateSequence fuel i useCache (pollAndPause i s))
      as [[r|e|] s1]; simpl in *.
    + apply IH; [exact H1|].
      apply Forall_app. split; [exact F|]. constructor; [|constructor].
      simpl. apply extends_wellShaped, X. reflexivity.
    + now intros [= <-].
    + discriminate.
Qed.

(** X15. The entries [processBatch] returns, from any state the engine
    can be in, are those of the first numbers of the range, in ascending
    order and without gaps, never more than the range holds; each entry's
    sequence starts at its number, ends at 1 and has [steps + 1]
    elements. *)
Theorem processBatch_entries s fuel start end_ useCache rs :
  reachable s ->
  fst (processBatch fuel start end_ useCache s) = Returned rs ->
  (length rs <= Z.to_nat (end_ - start + 1))%nat /\
  map BatchEntry.number rs =
    map (fun j => start + Z.of_nat j) (seq 0 (length rs)) /\
  Forall (fun e => wellShaped (BatchEntry.number e) (BatchEntry.result e)) rs.
Proof.
  intros R E. apply reachable_inv in R. unfold processBatch in E.
  destruct (processFrom_numbers _ _ _ _ _ _ _ E) as (k & K & Q).
  simpl in Q.
  assert (L : length rs = k).
  { apply (f_equal (@length Z)) in Q.
    now rewrite !length_map, length_seq in Q. }
  rewrite L. split; [exact K|]. split; [exact Q|].
  eapply processFrom_shaped; [exact R|constructor|exact E].
Qed.

Lemma processBatch_entries_witness :
  exists rs,
    fst (processBatch 50 5 7 true warmCalculator) = Returned rs /\
    (length rs <= Z.to_nat (7 - 5 + 1))%nat /\
    map BatchEntry.number rs =
      map (fun j => 5 + Z.of_nat j) (seq 0 (length rs)) /\
    Forall (fun e => wellShaped (BatchEntry.number e) (BatchEntry.result e))
           rs.
Proof.
  eexists. split; [vm_compute; reflexivity|].
  apply (processBatch_entries warmCalculator 50 5 7 true).
  - apply reach_batch, reach_new. vm_compute. discriminate.
  - vm_compute. reflexivity.
Defined.

Lemma lookup_monitor useCache key s :
  memoryManager (snd (lookup useCache key s)) = memoryManager s.
Proof.
  unfold lookup. destruct useCache; [|reflexivity].
  now destruct (LRUCache.get key (cache s)).
Qed.

Lemma loop_alwaysOK fuel useCache : forall currentNum steps sequence s,
  MemoryManager.alwaysOK (memoryManager s) ->
  MemoryManager.alwaysOK
    (memoryManager (snd (loop fuel useCache currentNum steps sequence s))).
Proof.
  induction fuel as [|fuel IH]; intros cur steps seq s OK;
    rewrite loop_unfold; destruct (cur =? 1); try exact OK.
  destruct (pollAndClear_calm steps s OK) as [_ OK1].
  pose proof (lookup_monitor useCache cur (pollAndClear steps s)) as M.
  destruct (lookup useCache cur (pollAndClear steps s)) as [[h|] s2];
    simpl in M; rewrite <- M in OK1.
  - exact OK1.
  - destruct (collatzStep cur) as [e|next]; [exact OK1|].
    destruct (_ >? _); [exact OK1|]. now apply IH.
Qed.

Lemma calculateSequence_alwaysOK fuel n useCache s :
  MemoryManager.alwaysOK (memoryManager s) ->
  MemoryManager.alwaysOK
    (memoryManager (snd (calculateSequence fuel n useCache s))).
Proof.
  intros OK. unfold calculateSequence. destruct (n <=? 0); [exact OK|].
  pose proof (lookup_monitor useCache n s) as M.
  destruct (lookup useCache n s) as [[cached|] s1]; simpl in M;
    rewrite <- M in OK; [exact OK|].
  pose proof (loop_alwaysOK fuel useCache n 0 [n] s1 OK) as X.
  destruct (loop fuel useCache n 0 [n] s1) as [[st sq|h|e|] s2];
    simpl in X; try exact X.
  destruct useCache; [|exact X].
  now destruct (LRUCache.set n (Trajectory.mk st sq false) (cache s2)).
Qed.

Lemma calculateSequence_uncached_cache fuel n s :
  (cache (snd (calculateSequence fuel n false s)) = cache s \/
   cache (snd (calculateSequence fuel n false s)) = LRUCache.clear (cache s)) /\
  (MemoryManager.alwaysOK (memoryManager s) ->
   cache (snd (calculateSequence fuel n false s)) = cache s).
Proof.
  unfold calculateSequence. destruct (n <=? 0); [split; auto|].
  rewrite lookup_uncached.
  pose proof (loop_uncached_frame fuel n 0 [n] s) as X.
  destruct (loop fuel false n 0 [n] s) as [[st sq|r|e|] s2]; exact X.
Qed.

Lemma pollAndPause_alwaysOK i s :
  MemoryManager.alwaysOK (memoryManager s) ->
  MemoryManager.alwaysOK (memoryManager (pollAndPause i s)).
Proof.
  intros OK. unfold pollAndPause. destruct (_ =? 0); [|exact OK].
  simpl. now apply alwaysOK_next.
Qed.

Lemma processFrom_uncached_frame fuel todo : forall i results s,
  (cache (snd (processFrom fuel todo i false results s)) = cache s \/
   cache (snd (processFrom fuel todo i false results s)) =
   LRUCache.clear (cache s)) /\
  (MemoryManager.alwaysOK (memoryManager s) ->
   cache (snd (processFrom fuel todo i false results s)) = cache s).
Proof.
  induction todo as [|todo IH]; intros i results s; simpl; [split; auto|].
  destruct (calculateSequence_uncached_cache fuel i (pollAndPause i s))
    as [Fr Calm].
  rewrite pollAndPause_cache in Fr, Calm.
  pose proof (calculateSequence_alwaysOK fuel i false (pollAndPause i s)) as OKs.
  destruct (calculateSequence fuel i false (pollAndPause i s))
    as [[r|e|] s1]; simpl in *.
  - destruct (IH (i + 1) (results ++ [BatchEntry.mk i r]) s1) as [Fr' Calm'].
    split.
    + destruct Fr' as [X|X]; destruct Fr as [Y|Y]; rewrite X, Y; auto.
    + intros OK. rewrite Calm'; [auto using pollAndPause_alwaysOK|].
      auto using pollAndPause_alwaysOK.
  - split; [exact Fr|]. auto using pollAndPause_alwaysOK.
  - split; [exact Fr|]. auto using pollAndPause_alwaysOK.
Qed.

(** X16. An uncached batch treats the cache as an uncached call does:
    after [processBatch(start, end, false)] the cache is exactly as
    before or has been cleared as a whole, and it is exactly as before
    when the monitor reports OK throughout. *)
Theorem processBatch_uncached_frame fuel start end_ s :
  (cache (snd (processBatch fuel start end_ false s)) = cache s \/
   cache (snd (processBatch fuel start end_ false s)) =
   LRUCache.clear (cache s)) /\
  (MemoryManager.alwaysOK (memoryManager s) ->
   cache (snd (processBatch fuel start end_ false s)) = cache s).
Proof. apply processFrom_uncached_frame. Qed.

Lemma processBatch_uncached_frame_witness :
  cache (snd (processBatch 200 1 30 false warmCalculator))
    = cache warmCalculator.
Proof.
  apply (proj2 (processBatch_uncached_frame 200 1 30 warmCalculator)).
  apply calm_heap_alwaysOK. intros i. vm_compute. discriminate.
Defined.

Lemma generateRange_length fuel s end_ : forall i bs,
  1 <= batchSize s ->
  generateRange fuel i end_ s = Some bs ->
  Z.of_nat (length bs) = Z.max 0 ((end_ - i + batchSize s) / batchSize s).
Proof.
  induction fuel as [|fuel IH]; intros i bs HB; simpl;
    destruct (Z.leb_spec i end_) as [Le|Gt]; try discriminate.
  - intros [= <-]. simpl.
    assert ((end_ - i + batchSize s) / batchSize s < 1)
      by (apply Z.div_lt_upper_bound; lia).
    lia.
  - destruct (generateRange fuel (i + batchSize s) end_ s) as [rest|] eqn:G;
      [|discriminate].
    intros [= <-]. specialize (IH _ _ HB G).
    replace (end_ - (i + batchSize s) + batchSize s) with (end_ - i) in IH
      by lia.
    replace (end_ - i + batchSize s) with (end_ - i + 1 * batchSize s) by lia.
    rewrite Z.div_add by lia.
    assert (0 <= (end_ - i) / batchSize s) by (apply Z.div_pos; lia).
    cbn [length]. lia.
  - intros [= <-]. simpl.
    assert ((end_ - i + batchSize s) / batchSize s < 1)
      by (apply Z.div_lt_upper_bound; lia).
    lia.
Qed.

(** X17. For a batch size [B >= 1], with [start] and [end + B] safe
    integers, [generateRange(start, end)] comes to an end and yields
    [(end - start + B) / B] batches, rounded down, and none when
    [start > end]. *)
Theorem generateRange_count s start end_ :
  1 <= batchSize s ->
  - MAX_SAFE_INTEGER <= start ->
  end_ + batchSize s <= MAX_SAFE_INTEGER ->
  exists bs,
    (forall fuel, (Z.to_nat (end_ - start + 1) <= fuel)%nat ->
                  generateRangeDouble fuel start end_ s = Some bs) /\
    Z.of_nat (length bs) =
    Z.max 0 ((end_ - start + batchSize s) / batchSize s).
Proof.
  intros HB Lo Hi. destruct (Z_le_gt_dec start end_) as [L|G].
  - destruct (chain_exists (batchSize s) end_ HB
                (Z.to_nat (end_ - start + 1)) start L (le_n _))
      as (bs & C & Len).
    exists bs.
    assert (E : forall fuel, (Z.to_nat (end_ - start + 1) <= fuel)%nat ->
                             generateRange fuel start end_ s = Some bs).
    { intros fuel F. apply (generateRange_chain _ _ _ _ HB C). lia. }
    split.
    + intros fuel F. rewrite generateRangeDouble_exact by assumption. auto.
    + apply (generateRange_length (Z.to_nat (end_ - start + 1))); auto.
  - exists []. split.
    + intros fuel _. destruct fuel; simpl;
        (destruct (Z.leb_spec start end_); [lia|reflexivity]).
    + simpl.
      assert ((end_ - start + batchSize s) / batchSize s < 1)
        by (apply Z.div_lt_upper_bound; lia).
      lia.
Qed.

Lemma generateRange_count_witness :
  exists bs,
    (forall fuel, (Z.to_nat (10 - 1 + 1) <= fuel)%nat ->
                  generateRangeDouble fuel 1 10 smallBatchCalculator
                    = Some bs) /\
    Z.of_nat (length bs) =
    Z.max 0 ((10 - 1 + batchSize smallBatchCalculator)
             / batchSize smallBatchCalculator).
Proof.
  apply (generateRange_count smallBatchCalculator 1 10).
  - vm_compute. discriminate.
  - vm_compute. discriminate.
  - vm_compute. discriminate.
Defined.

(** X18. With a batch size of 0 or less, which the constructor accepts
    when it is negative, [generateRange(start, end)] with [start <= end]
    never comes to an end: it keeps yielding batches, so no finite number
    of rounds completes it. *)
Theorem generateRange_nonpositive_batch_diverges fuel s start end_ :
  batchSize s <= 0 ->
  start <= end_ ->
  generateRange fuel start end_ s = None.
Proof.
  intros HB. revert start. induction fuel as [|fuel IH]; intros i Le; simpl;
    destruct (Z.leb_spec i end_); try lia; [reflexivity|].
  rewrite IH by lia. reflexivity.
Qed.

Lemma generateRange_nonpositive_batch_diverges_witness :
  generateRange 1000 1 10 negativeBatchCalculator = None.
Proof.
  apply (generateRange_nonpositive_batch_diverges 1000
           negativeBatchCalculator 1 10).
  - vm_compute. discriminate.
  - lia.
Defined.

Lemma lookup_maxSize useCache key s :
  LRUCache.maxSize (cache (snd (lookup useCache key s))) =
  LRUCache.maxSize (cache s).
Proof.
  unfold lookup, LRUCache.get. destruct useCache; [|reflexivity].
  now destruct (JsMap.get key (LRUCache.cache (cache s))).
Qed.

Lemma pollAndClear_maxSize steps s :
  LRUCache.maxSize (cache (pollAndClear steps s)) = LRUCache.maxSize (cache s).
Proof.
  destruct (pollAndClear_frame steps s) as [E|E]; now rewrite E.
Qed.

Lemma set_maxSize {V} (k : Z) (v : V) (c c' : LRUCache.t V) :
  LRUCache.set k v c = Some c' -> LRUCache.maxSize c' = LRUCache.maxSize c.
Proof.
  unfold LRUCache.set, LRUCache.evictLeastUsed. destruct (_ >=? _).
  - destruct (LRUCache.leastUsedKey c); [|discriminate]. now intros [= <-].
  - now intros [= <-].
Qed.

Lemma loop_maxSize fuel useCache : forall currentNum steps sequence s,
  LRUCache.maxSize
    (cache (snd (loop fuel useCache currentNum steps sequence s))) =
  LRUCache.maxSize (cache s).
Proof.
  induction fuel as [|fuel IH]; intros cur steps seq s;
    rewrite loop_unfold; destruct (cur =? 1); try reflexivity.
  pose proof (lookup_maxSize useCache cur (pollAndClear steps s)) as M.
  rewrite pollAndClear_maxSize in M.
  destruct (lookup useCache cur (pollAndClear steps s)) as [[h|] s2];
    simpl in M; [exact M|].
  destruct (collatzStep cur) as [e|next]; [exact M|].
  destruct (_ >? _); [exact M|]. now rewrite IH.
Qed.

(** X19. The engine keeps its cache within the configured capacity: a
    call of [calculateSequence] never changes [maxSize], and from any
    state the engine can be in the cache holds at most [maxSize] entries
    after the call, memory-pressure clears included. *)
Theorem engine_cache_within_capacity s fuel n useCache :
  reachable s ->
  LRUCache.maxSize (cache (snd (calculateSequence fuel n useCache s))) =
    LRUCache.maxSize (cache s) /\
  LRUCache.size (cache (snd (calculateSequence fuel n useCache s))) <=
    LRUCache.maxSize (cache s).
Proof.
  intros R.
  assert (M : LRUCache.maxSize
                (cache (snd (calculateSequence fuel n useCache s))) =
              LRUCache.maxSize (cache s)).
  { unfold calculateSequence. destruct (n <=? 0); [reflexivity|].
    pose proof (lookup_maxSize useCache n s) as L.
    destruct (lookup useCache n s) as [[cached|] s1]; simpl in L; [exact L|].
    pose proof (loop_maxSize fuel useCache n 0 [n] s1) as X. rewrite L in X.
    destruct (loop fuel useCache n 0 [n] s1) as [[st sq|h|e|] s2];
      simpl in X; try exact X.
    destruct useCache; [|exact X].
    destruct (LRUCache.set n (Trajectory.mk st sq false) (cache s2))
      as [c|] eqn:Es; [|exact X].
    simpl. now rewrite (set_maxSize _ _ _ _ Es). }
  split; [exact M|]. rewrite <- M.
  apply reachable_inv in R.
  destruct (calculateSequence_sound fuel n useCache s R) as [[W _] _].
  apply W.
Qed.

Lemma engine_cache_within_capacity_witness :
  LRUCache.maxSize (cache (snd (calculateSequence 50 7 true warmCalculator))) =
    LRUCache.maxSize (cache warmCalculator) /\
  LRUCache.size (cache (snd (calculateSequence 50 7 true warmCalculator))) <=
    LRUCache.maxSize (cache warmCalculator).
Proof.
  apply (engine_cache_within_capacity warmCalculator 50 7 true).
  apply reach_batch, reach_new. vm_compute. discriminate.
Defined.

Lemma uncached_flag fuel n s r :
  fst (calculateSequence fuel n false s) = Returned r ->
  Trajectory.cacheHit r = false.
Proof.
  unfold calculateSequence. destruct (n <=? 0); [discriminate|].
  rewrite lookup_uncached.
  destruct (loop fuel false n 0 [n] s) as [[st sq|h|e|] s2] eqn:L; simpl;
    try discriminate.
  - now intros [= <-].
  - apply loop_sound in L; [|discriminate]. destruct L as [U _]. discriminate.
Qed.

Lemma processFrom_uncached_flags fuel todo : forall i results s rs,
  Forall (fun e => Trajectory.cacheHit (BatchEntry.result e) = false) results ->
  fst (processFrom fuel todo i false results s) = Returned rs ->
  Forall (fun e => Trajectory.cacheHit (BatchEntry.result e) = false) rs.
Proof.
  induction todo as [|todo IH]; intros i results s rs F; simpl.
  - now intros [= <-].
  - pose proof (uncached_flag fuel i (pollAndPause i s)) as X.
    destruct (calculateSequence fuel i false (pollAndPause i s))
      as [[r|e|] s1]; simpl in *.
    + apply IH. apply Forall_app. split; [exact F|].
      constructor; [|constructor]. simpl. now apply X.
    + now intros [= <-].
    + discriminate.
Qed.

(** X20. Uncached runs never report a cache hit: every entry of
    [processBatch(start, end, false)] has [cacheHit] false, so a sample
    made of such a batch counts no hit. *)
Theorem uncached_batch_has_no_hits fuel start end_ s rs (t m p : Q) :
  fst (processBatch fuel start end_ false s) = Returned rs ->
  Forall (fun e => Trajectory.cacheHit (BatchEntry.result e) = false) rs /\
  PerformanceAnalyzer.hitCount
    (PerformanceAnalyzer.mkSample (Some rs) t m p) = 0.
Proof.
  intros E.
  assert (F : Forall (fun e => Trajectory.cacheHit (BatchEntry.result e) = false)
                     rs).
  { eapply processFrom_uncached_flags; [constructor|exact E]. }
  split; [exact F|]. unfold PerformanceAnalyzer.hitCount. simpl. clear E.
  induction F as [|e rs He F IH]; [reflexivity|].
  simpl. rewrite He. exact IH.
Qed.

Lemma uncached_batch_has_no_hits_witness :
  exists rs,
    fst (processBatch 50 1 6 false warmCalculator) = Returned rs /\
    Forall (fun e => Trajectory.cacheHit (BatchEntry.result e) = false) rs /\
    PerformanceAnalyzer.hitCount
      (PerformanceAnalyzer.mkSample (Some rs) 0 0 0) = 0.
Proof.
  eexists. split; [vm_compute; reflexivity|].
  apply (uncached_batch_has_no_hits 50 1 6 warmCalculator).
  vm_compute. reflexivity.
Defined.

(** * Further properties of the aggregation *)

Lemma fold_hits_equal (x : Z) (l : list Sample) : forall a,
  (forall s, In s l -> hitCount s = x) ->
  fold_left (fun acc s => (acc + hitCount s)%Z) l a =
  a + Z.of_nat (length l) * x.
Proof.
  induction l as [|s l IH]; intros a H.
  - simpl. lia.
  - cbn [fold_left length]. rewrite IH by (intros s' I; apply H; now right).
    rewrite (H s) by now left. rewrite Nat2Z.inj_succ. lia.
Qed.

(** X21. When every sample of a batch counts as many hits as the first,
    the mean that [calculateAverageMetrics] computes is that count, and
    it is also what [updateMetrics] adds to the total. *)
Theorem equal_samples_fold_the_mean metrics first others bm h :
  (forall s, In s others -> hitCount s = hitCount first) ->
  calculateAverageMetrics (first :: others) = Some bm ->
  totalCacheHits metrics = Some h ->
  (cacheHits bm == inject_Z (hitCount first))%Q /\
  totalCacheHits (updateMetrics metrics bm) = Some (h + hitCount first).
Proof.
  intros Eq A T. split.
  - injection A as <-. cbn [cacheHits].
    rewrite (fold_hits_equal (hitCount first)) by exact Eq.
    unfold lengthQ. cbn [length].
    replace (hitCount first + Z.of_nat (length others) * hitCount first)%Z
      with (hitCount first * Z.of_nat (S (length others)))%Z by lia.
    rewrite inject_Z_mult.
    apply Qdiv_mult_l. unfold Qeq. simpl. lia.
  - now apply (updateMetrics_counts_first_sample metrics first others).
Qed.

Lemma equal_samples_fold_the_mean_witness :
  exists bm,
    calculateAverageMetrics
      [mkSample (Some [BatchEntry.mk 2 (Trajectory.mk 1 [2; 1] true)]) 1 1 1;
       mkSample (Some [BatchEntry.mk 2 (Trajectory.mk 1 [2; 1] true)]) 2 2 2]
      = Some bm /\
    (cacheHits bm == inject_Z 1)%Q /\
    totalCacheHits (updateMetrics initialWithCache bm) = Some (0 + 1).
Proof.
  eexists. split; [reflexivity|].
  apply (equal_samples_fold_the_mean initialWithCache
           (mkSample (Some [BatchEntry.mk 2 (Trajectory.mk 1 [2; 1] true)])
                     1 1 1)
           [mkSample (Some [BatchEntry.mk 2 (Trajectory.mk 1 [2; 1] true)])
                     2 2 2]).
  - intros s [<-|[]]. reflexivity.
  - reflexivity.
  - reflexivity.
Defined.

Lemma fold_countResult_max rs : forall m h,
  m <= fst (fold_left countResult rs (m, h)) /\
  (forall r, In r rs ->
             Trajectory.steps (BatchEntry.result r)
             <= fst (fold_left countResult rs (m, h))) /\
  (fst (fold_left countResult rs (m, h)) = m \/
   exists r, In r rs /\
             fst (fold_left countResult rs (m, h)) =
             Trajectory.steps (BatchEntry.result r)).
Proof.
  induction rs as [|r rs IH]; intros m h.
  - simpl. split; [lia|]. split; [intros r []|now left].
  - change (fold_left countResult (r :: rs) (m, h))
      with (fold_left countResult rs (countResult (m, h) r)).
    set (m1 := Z.max m (Trajectory.steps (BatchEntry.result r))).
    assert (C : exists h1, countResult (m, h) r = (m1, h1)).
    { unfold countResult. eexists. reflexivity. }
    destruct C as (h1 & ->).
    destruct (IH m1 h1) as (A & B & D).
    split; [lia|]. split.
    + intros r' [<-|I]; [lia|auto].
    + destruct D as [D|(r' & I & D)].
      * destruct (Z.max_spec m (Trajectory.steps (BatchEntry.result r)))
          as [[_ M]|[_ M]]; fold m1 in M.
        -- right. exists r. split; [now left|congruence].
        -- left. congruence.
      * right. exists r'. split; [now right|exact D].
Qed.

(** X22. After [updateMetrics], [maxSteps] is the largest of its former
    value and the step counts of the batch's results: it is at least
    each of them and equal to one of them. *)
Theorem updateMetrics_maxSteps metrics bm :
  maxSteps metrics <= maxSteps (updateMetrics metrics bm) /\
  (forall rs r,
      firstResults bm = Some rs -> In r rs ->
      Trajectory.steps (BatchEntry.result r)
      <= maxSteps (updateMetrics metrics bm)) /\
  (maxSteps (updateMetrics metrics bm) = maxSteps metrics \/
   exists rs r,
     firstResults bm = Some rs /\ In r rs /\
     maxSteps (updateMetrics metrics bm) =
     Trajectory.steps (BatchEntry.result r)).
Proof.
  unfold updateMetrics. destruct (firstResults bm) as [rs|].
  - destruct (fold_countResult_max rs (maxSteps metrics)
                (totalCacheHits metrics)) as (A & B & D).
    destruct (fold_left countResult rs (maxSteps metrics, totalCacheHits metrics))
      as [st hs]. simpl in *.
    split; [exact A|]. split.
    + intros rs' r [= <-]. apply B.
    + destruct D as [D|(r & I & D)]; [now left|].
      right. exists rs, r. auto.
  - simpl. split; [lia|]. split; [discriminate|now left].
Qed.

Lemma fold_Qmax (l : list Q) : forall a,
  (a <= fold_left Qmax l a)%Q /\
  (forall x, In x l -> (x <= fold_left Qmax l a)%Q) /\
  (fold_left Qmax l a = a \/ In (fold_left Qmax l a) l).
Proof.
  induction l as [|y l IH]; intros a; simpl.
  - split; [apply Qle_refl|]. split; [intros x []|now left].
  - destruct (IH (Qmax a y)) as (A & B & D).
    split; [eapply Qle_trans; [apply Q.le_max_l|exact A]|]. split.
    + intros x [<-|I]; [eapply Qle_trans; [apply Q.le_max_r|exact A]|auto].
    + destruct D as [D|D]; [|now right; right].
      rewrite D. unfold Qmax, GenericMinMax.gmax.
      destruct (a ?= y)%Q; auto.
Qed.

(** X23. The peak memory of a batch is the largest [memoryUsed] among
    its samples: it is at least the [memoryUsed] of every sample and is
    the [memoryUsed] of one of them.  The [peakMemoryUsed] readings of
    the samples play no part in it. *)
Theorem batch_peak_is_largest_memoryUsed samples bm :
  calculateAverageMetrics samples = Some bm ->
  (forall s, In s samples -> (memoryUsed s <= batchPeakMemoryUsed bm)%Q) /\
  (exists s, In s samples /\ batchPeakMemoryUsed bm = memoryUsed s).
Proof.
  destruct samples as [|first others]; [discriminate|].
  intros [= <-]. cbn [batchPeakMemoryUsed].
  destruct (fold_Qmax (map memoryUsed others) (memoryUsed first))
    as (A & B & D).
  split.
  - intros s [<-|I]; [exact A|]. apply B. now apply in_map.
  - destruct D as [D|D].
    + exists first. split; [now left|exact D].
    + apply in_map_iff in D as (s & E & I).
      exists s. split; [now right|now rewrite E].
Qed.

Lemma batch_peak_is_largest_memoryUsed_witness :
  exists bm,
    calculateAverageMetrics [mkSample None 1 5 9; mkSample None 1 7 2]
      = Some bm /\
    (forall s, In s [mkSample None 1 5 9; mkSample None 1 7 2] ->
               (memoryUsed s <= batchPeakMemoryUsed bm)%Q) /\
    (exists s, In s [mkSample None 1 5 9; mkSample None 1 7 2] /\
               batchPeakMemoryUsed bm = memoryUsed s).
Proof.
  eexists. split; [reflexivity|].
  apply (batch_peak_is_largest_memoryUsed
           [mkSample None 1 5 9; mkSample None 1 7 2]).
  reflexivity.
Defined.

(** * Cold caches and whole batches *)

Lemma pollAndClear_cold steps s :
  LRUCache.cache (cache s) = [] ->
  LRUCache.cache (cache (pollAndClear steps s)) = [] /\
  (LRUCache.usage (cache s) = [] ->
   LRUCache.usage (cache (pollAndClear steps s)) = []).
Proof.
  intros E. destruct (pollAndClear_frame steps s) as [X|X]; rewrite X; auto.
Qed.

Lemma loop_cold fuel : forall currentNum steps sequence s,
  LRUCache.cache (cache s) = [] ->
  fst (loop fuel true currentNum steps sequence s) =
  fst (loop fuel false currentNum steps sequence s) /\
  LRUCache.cache (cache (snd (loop fuel true currentNum steps sequence s)))
    = [] /\
  (LRUCache.usage (cache s) = [] ->
   LRUCache.usage (cache (snd (loop fuel true currentNum steps sequence s)))
     = []).
Proof.
  induction fuel as [|fuel IH]; intros cur steps seq s E;
    rewrite !(loop_unfold _ _ cur); destruct (cur =? 1);
    try solve [simpl; auto].
  destruct (pollAndClear_cold steps s E) as [E1 U1].
  rewrite lookup_uncached.
  rewrite lookup_absent by (rewrite E1; reflexivity).
  destruct (collatzStep cur) as [e|next]; [simpl; auto|].
  destruct (_ >? _); [simpl; auto|].
  destruct (IH next (steps + 1) (seq ++ [next]) _ E1) as (A & B & C). auto.
Qed.

(** X24. On an empty cache a cached call cannot hit: when it returns,
    [cacheHit] is false and the result is the one the uncached call
    gives. *)
Theorem cold_cache_call_misses s fuel n r :
  LRUCache.cache (cache s) = [] ->
  fst (calculateSequence fuel n true s) = Returned r ->
  Trajectory.cacheHit r = false /\
  fst (calculateSequence fuel n false s) = Returned r.
Proof.
  intros E. unfold calculateSequence. destruct (n <=? 0); [discriminate|].
  rewrite lookup_uncached.
  rewrite lookup_absent by (rewrite E; reflexivity).
  destruct (loop_cold fuel n 0 [n] s E) as (A & _ & _).
  destruct (loop fuel true n 0 [n] s) as [o1 s1].
  destruct (loop fuel false n 0 [n] s) as [o2 s2] eqn:L.
  simpl in A. subst o2. destruct o1 as [st sq|h|e|]; simpl; try discriminate.
  - destruct (LRUCache.set n (Trajectory.mk st sq false) (cache s1));
      [|discriminate].
    intros [= <-]. auto.
  - apply loop_sound in L; [|discriminate]. destruct L as [U _]. discriminate.
Qed.

Lemma cold_cache_call_misses_witness :
  Trajectory.cacheHit
    (Trajectory.mk 8 [6; 3; 10; 5; 16; 8; 4; 2; 1] false) = false /\
  fst (calculateSequence 20 6 false (stillCalculator 2)) =
  Returned (Trajectory.mk 8 [6; 3; 10; 5; 16; 8; 4; 2; 1] false).
Proof.
  apply (cold_cache_call_misses (stillCalculator 2) 20 6).
  - reflexivity.
  - vm_compute. reflexivity.
Defined.

(** X25. A calculator built with a capacity of 0 or less cannot cache:
    on its empty cache, every cached call whose uncached counterpart
    returns fails in [evictLeastUsed], which reads the first element of
    an empty array, and the cache stays empty. *)
Theorem nonpositive_capacity_cached_call_throws s fuel n r :
  LRUCache.maxSize (cache s) <= 0 ->
  LRUCache.cache (cache s) = [] ->
  LRUCache.usage (cache s) = [] ->
  fst (calculateSequence fuel n false s) = Returned r ->
  fst (calculateSequence fuel n true s) = Thrown TypeError /\
  LRUCache.cache (cache (snd (calculateSequence fuel n true s))) = [].
Proof.
  intros M E U. unfold calculateSequence. destruct (n <=? 0); [discriminate|].
  rewrite lookup_uncached.
  rewrite lookup_absent by (rewrite E; reflexivity).
  destruct (loop_cold fuel n 0 [n] s E) as (A & B & C).
  specialize (C U).
  pose proof (loop_maxSize fuel true n 0 [n] s) as Ms.
  destruct (loop fuel true n 0 [n] s) as [o1 s1].
  destruct (loop fuel false n 0 [n] s) as [o2 s2] eqn:L.
  simpl in A, B, C, Ms. subst o2.
  destruct o1 as [st sq|h|e|]; simpl; try discriminate.
  - intros _.
    assert (S : LRUCache.set n (Trajectory.mk st sq false) (cache s1) = None).
    { unfold LRUCache.set, LRUCache.evictLeastUsed, LRUCache.leastUsedKey.
      rewrite B, C. simpl.
      destruct (Z.geb_spec (JsMap.size (@nil (Z * Trajectory.t)))
                           (LRUCache.maxSize (cache s1))) as [_|G];
        [reflexivity|].
      unfold JsMap.size in G. simpl in G. lia. }
    rewrite S. simpl. auto.
  - apply loop_sound in L; [|discriminate]. destruct L as [E' _].
    discriminate.
Qed.

Lemma nonpositive_capacity_cached_call_throws_witness :
  fst (calculateSequence 20 6 true negativeCacheCalculator) = Thrown TypeError /\
  LRUCache.cache
    (cache (snd (calculateSequence 20 6 true negativeCacheCalculator))) = [].
Proof.
  apply (nonpositive_capacity_cached_call_throws negativeCacheCalculator 20 6
           (Trajectory.mk 8 [6; 3; 10; 5; 16; 8; 4; 2; 1] false)).
  - vm_compute. discriminate.
  - reflexivity.
  - reflexivity.
  - vm_compute. reflexivity.
Defined.



